(** * Storefront backend: access predicates, collection hooks, migration

    A shallow embedding of the hand-written logic of the storefront
    backend:

    - [src/access/index.ts]: the access predicates handed to the
      e-commerce plugin ([adminOnly], [adminOrCustomerOwner],
      [adminOrPublishedStatus], [customerOnlyFieldAccess]);
    - the [Users] collection: its [beforeChange] hook and the [roles]
      field;
    - the products override: its [beforeValidate] hook, which derives a
      slug from the title;
    - migration [20251202_023627]: its [up] and [down] scripts, run on a
      model of an SQLite schema (tables, indexes, views and triggers);
    - the cart store of the storefront guide ([PAYLOAD_ASTRO_GUIDE.md]).

    JavaScript objects used as records of fields are finite maps from
    field names to values; [undefined] is the absence of a key, or [None]
    where a whole object may be missing. *)

From Stdlib Require Import ZArith NArith.
From stdpp Require Import base option list strings gmap fin_maps.

Open Scope Z_scope.

(** ** JavaScript values *)

(** A string of the JavaScript side whose content is free text: the
    sequence of its UTF-16 code units. Identifiers, field names and the
    literals of the source are Rocq strings. *)
Abbreviation jsstring := (list N) (only parsing).

(** The values a document field holds here: [null], booleans,
    integer-valued numbers, text, and arrays of option names (the value of
    a [select] field with [hasMany]). *)
Inductive value : Type :=
  | VNull
  | VBool (b : bool)
  | VNum (n : Z)
  | VStr (s : jsstring)
  | VArr (xs : list string).

#[global] Instance value_eq_dec : EqDecision value.
Proof. solve_decision. Defined.

(** A document as a hook receives it: a field is [undefined] when its key
    is missing. *)
Abbreviation document := (gmap string value) (only parsing).

(** [ToBoolean] on the result of a property read. *)
Definition truthy (v : option value) : bool :=
  match v with
  | None => false
  | Some VNull => false
  | Some (VBool b) => b
  | Some (VNum n) => negb (n =? 0)
  | Some (VStr s) => match s with [] => false | _ :: _ => true end
  | Some (VArr _) => true
  end.

(** ** Access predicates *)

Module Access.

(** The authenticated user of a request. Identifiers are the integer row
    ids of the SQLite adapter; [roles] may be missing on the object. *)
Record User : Type := mkUser {
  user_id : Z;
  user_roles : option (list string)
}.

(** What an access predicate returns: a boolean, or a query that
    restricts the operation to the documents matching it. *)
Inductive operand : Type :=
  | ONum (n : Z)
  | OStr (s : string).

Inductive access_result : Type :=
  | Allow
  | Deny
  | WhereEquals (field : string) (v : operand).

(** [Boolean(user?.roles?.includes(role))]: the optional chain gives
    [undefined], hence [false], when the user or its roles are
    missing. *)
Definition hasRole (role : string) (user : option User) : bool :=
  match user with
  | None => false
  | Some u =>
      match user_roles u with
      | None => false
      | Some rs => bool_decide (role ∈ rs)
      end
  end.

Definition adminOnly (user : option User) : bool :=
  hasRole "admin" user.

Definition adminOnlyFieldAccess (user : option User) : bool :=
  hasRole "admin" user.

Definition adminOrCustomerOwner (user : option User) : access_result :=
  if hasRole "admin" user then Allow
  else
    match user with
    | Some u =>
        (* [user?.id] is falsy on the number 0 *)
        if negb (user_id u =? 0) then WhereEquals "customer" (ONum (user_id u))
        else Deny
    | None => Deny
    end.

Definition adminOrPublishedStatus (user : option User) : access_result :=
  if hasRole "admin" user then Allow
  else WhereEquals "_status" (OStr "published").

Definition customerOnlyFieldAccess (user : option User) : bool :=
  hasRole "customer" user.

(** Sample users: an administrator, a customer, and a user object without
    a roles list. *)
Definition sample_admin : User := mkUser 1 (Some ["admin"]).
Definition sample_customer : User := mkUser 7 (Some ["customer"]).
Definition sample_roleless : User := mkUser 9 None.

(** The user's roles contain [role]: the user exists, has a roles list,
    and [role] is an element of it. *)
Definition roles_contain (role : string) (user : option User) : Prop :=
  ∃ u rs, user = Some u ∧ user_roles u = Some rs ∧ role ∈ rs.

End Access.

(** ** The Users collection *)

Module Users.

(** [defaultValue] of the [roles] field. *)
Definition roles_defaultValue : list string := ["customer"].

(** The [beforeChange] hook. [totalDocs] is what
    [req.payload.count({ collection: 'users' })] answered. *)
Definition beforeChange (operation : string) (totalDocs : N)
    (data : document) : document :=
  if bool_decide (operation = "create") then
    if (totalDocs =? 0)%N then <["roles" := VArr ["admin"]]> data
    else data
  else data.

(** The framework fills a field that the input leaves [undefined] with
    the field's [defaultValue] before the [beforeChange] hooks run. *)
Definition withDefaults (data : document) : document :=
  match data !! "roles" with
  | None => <["roles" := VArr roles_defaultValue]> data
  | Some _ => data
  end.

End Users.

(** ** The products override *)

(** How a call completes: with a value, or by throwing a [TypeError]. *)
Inductive completion (A : Type) : Type :=
  | Normal (a : A)
  | TypeError.
Arguments Normal {A} a.
Arguments TypeError {A}.

Module Products.

(** The code unit of ['-']. *)
Definition hyphen : N := 45.

(** Membership in the class [a-z0-9]: ['a'..'z'] is 97..122 and
    ['0'..'9'] is 48..57. *)
Definition is_alnum (c : N) : bool :=
  ((97 <=? c) && (c <=? 122) || (48 <=? c) && (c <=? 57))%N.

(** [.replace(/[^a-z0-9]+/g, '-')]: scanning from the left, every
    maximal run of code units outside the class becomes one hyphen.
    [in_run] tells that the code unit before the current one was part of
    the match being consumed. *)
Fixpoint collapse_runs (in_run : bool) (s : jsstring) : jsstring :=
  match s with
  | [] => []
  | c :: rest =>
      if is_alnum c then c :: collapse_runs false rest
      else if in_run then collapse_runs true rest
      else hyphen :: collapse_runs true rest
  end.

(** What is left once the code units outside the class that open [s]
    are consumed. *)
Fixpoint skip_run (s : jsstring) : jsstring :=
  match s with
  | [] => []
  | c :: rest => if is_alnum c then s else skip_run rest
  end.

(** [.replace(/^-|-$/g, '')]: without the [m] flag [^] and [$] are the
    two ends of the input, so a code unit is deleted when it is a hyphen
    and stands at index 0 or at the last index. [at_start] tells that the
    current code unit is at index 0. *)
Fixpoint trim_hyphens (at_start : bool) (s : jsstring) : jsstring :=
  match s with
  | [] => []
  | c :: rest =>
      if (c =? hyphen)%N && (at_start || bool_decide (rest = []))
      then trim_hyphens false rest
      else c :: trim_hyphens false rest
  end.

Section WithCaseMapping.

(** [String.prototype.toLowerCase]: the Unicode case mapping of the
    host, taken as it is. *)
Variable toLowerCase : jsstring → jsstring.

(** The expression assigned to [data.slug]. *)
Definition slugify (title : jsstring) : jsstring :=
  trim_hyphens true (collapse_runs false (toLowerCase title)).

(** The [beforeValidate] hook appended by [productsOverride]. [data]
    is optional in the hook's arguments. Calling [toLowerCase] on a
    truthy title that is not a string throws. *)
Definition beforeValidate (operation : string) (data : option document)
    : completion (option document) :=
  if bool_decide (operation = "create") || bool_decide (operation = "update")
  then
    match data with
    | None => Normal None
    | Some d =>
        if truthy (d !! "title") && negb (truthy (d !! "slug")) then
          match d !! "title" with
          | Some (VStr title) =>
              Normal (Some (<["slug" := VStr (slugify title)]> d))
          | _ => TypeError
          end
        else Normal (Some d)
    end
  else Normal data.

End WithCaseMapping.

(** The case mapping on Basic Latin: ['A'..'Z'] (65..90) go to
    ['a'..'z'], every other code unit stays. It is what [toLowerCase]
    does on a string of code units below 128, and serves as the
    instance at which the hook is run on concrete titles. *)
Definition toLowerCase_latin (s : jsstring) : jsstring :=
  (λ c, if (65 <=? c) && (c <=? 90) then c + 32 else c)%N <$> s.

(** Sample documents: the title ['A b'] alone, the same with the slug
    the hook derives from it, with a slug of the caller's, and the title
    ['!?'] alone. *)
Definition sample_titled : document :=
  <["title" := VStr [65; 32; 98]%N]> ∅.

Definition sample_slugged : document :=
  <["slug" := VStr [97; 45; 98]%N]> sample_titled.

Definition sample_own_slug : document :=
  <["slug" := VStr [120]%N]> sample_titled.

Definition sample_punctuation : document :=
  <["title" := VStr [33; 63]%N]> ∅.

(** The [slug] field of the document a hook call hands back. *)
Definition slug_of (data : option document) : option value :=
  data ≫= (λ d, d !! "slug").

(** A title that is text when it is present at all. *)
Definition title_is_text (data : option document) : Prop :=
  ∀ d v, data = Some d → d !! "title" = Some v → v = VNull ∨ ∃ s, v = VStr s.

(** Properties of a derived slug: its code units are in [a-z0-9] or
    hyphens, no hyphen is followed by a hyphen, and neither end is a
    hyphen. *)
Definition slug_chars (s : jsstring) : Prop :=
  Forall (λ c, is_alnum c = true ∨ c = hyphen) s.

Definition no_adjacent_hyphens (s : jsstring) : Prop :=
  ∀ i : nat, s !! i = Some hyphen → s !! S i ≠ Some hyphen.

Definition no_edge_hyphen (s : jsstring) : Prop :=
  head s ≠ Some hyphen ∧ last s ≠ Some hyphen.

End Products.

(** ** Migration 20251202_023627 *)

Module Migration.

(** *** Names *)

(** SQLite compares the names of tables, indexes, views and columns
    without regard to the case of the letters of ASCII. [nocase name] is
    the name with these letters in lower case: two names are the same to
    SQLite when they are equal under [nocase]. *)
Definition lower (c : Ascii.ascii) : Ascii.ascii :=
  let n := Ascii.N_of_ascii c in
  if ((65 <=? n) && (n <=? 90))%N then Ascii.ascii_of_N (n + 32) else c.

Fixpoint nocase (name : string) : string :=
  match name with
  | EmptyString => EmptyString
  | String c rest => String (lower c) (nocase rest)
  end.

(** *** The schema of an SQLite database *)

Record column : Type := mkColumn {
  col_name : string;
  col_type : string;
  col_notnull : bool;
  col_primary : bool
}.

Record foreign_key : Type := mkForeignKey {
  fk_column : string;
  fk_table : string;
  fk_parent : string;
  fk_on_update : string;
  fk_on_delete : string
}.

(** A table: its columns in order, and the foreign keys it declares as
    table constraints. *)
Record table : Type := mkTable {
  tbl_columns : list column;
  tbl_fkeys : list foreign_key
}.

(** An index: the table it is on (by the key of the table in the
    schema), and the columns it names. *)
Record index : Type := mkIndex {
  idx_table : string;
  idx_columns : list string;
  idx_unique : bool
}.

(** A view, as far as a change of the tables goes. SQLite keeps the text
    of a view and looks up the tables and columns it names only when it
    needs them. [view_resolves v ts] tells whether, with the tables [ts],
    every name in the text of [v] is found, and found once. (The views a
    view is built on stay as they are: no statement here creates or drops
    a view.) *)
Record view : Type := mkView {
  view_resolves : gmap string table → bool
}.

(** A trigger: the table it is attached to (by its key), and whether the
    names in its text are found with the tables [ts]. *)
Record trigger : Type := mkTrigger {
  trg_table : string;
  trg_resolves : gmap string table → bool
}.

(** Tables, indexes, views and triggers by name. Each map is keyed by the
    name under [nocase], which is how SQLite finds a name. *)
Record schema : Type := mkSchema {
  tables : gmap string table;
  indexes : gmap string index;
  views : gmap string view;
  triggers : gmap string trigger
}.

#[global] Instance column_eq_dec : EqDecision column.
Proof. solve_decision. Defined.
#[global] Instance foreign_key_eq_dec : EqDecision foreign_key.
Proof. solve_decision. Defined.
#[global] Instance table_eq_dec : EqDecision table.
Proof. solve_decision. Defined.
#[global] Instance index_eq_dec : EqDecision index.
Proof. solve_decision. Defined.

(** The names of the columns, as SQLite compares them. *)
Definition col_names (cols : list column) : list string :=
  (λ c, nocase (col_name c)) <$> cols.

(** *** Statements *)

Inductive statement : Type :=
  | CreateTable (name : string) (cols : list column) (fks : list foreign_key)
  | CreateIndex (unique : bool) (name tbl : string) (cols : list string)
  | AddColumn (tbl : string) (col : column)
  | DropTable (name : string)
  | DropIndex (name : string)
  | DropColumn (tbl col : string).

(** The key [name] is taken neither by a table nor by an index nor by a
    view (the three live in one name space; triggers have their own). *)
Definition name_free (s : schema) (name : string) : Prop :=
  tables s !! name = None ∧ indexes s !! name = None ∧ views s !! name = None.

(** What [CREATE TABLE] checks of its definition: some column, no column
    name twice, every foreign key on a column of the table. *)
Definition table_def_ok (cols : list column) (fks : list foreign_key) : Prop :=
  cols ≠ [] ∧ NoDup (col_names cols)
  ∧ Forall (λ fk, nocase (fk_column fk) ∈ col_names cols) fks.

(** What [ALTER TABLE ... ADD] checks: the name is new, the column is no
    primary key, and (there being no default value) it admits NULL. *)
Definition add_column_ok (t : table) (col : column) : Prop :=
  (nocase (col_name col) ∉ col_names (tbl_columns t))
  ∧ col_primary col = false ∧ col_notnull col = false.

(** No index on the table with key [tbl] names column [col]. *)
Definition not_indexed (s : schema) (tbl col : string) : Prop :=
  map_Forall (λ _ ix, idx_table ix = tbl →
                      nocase col ∉ nocase <$> idx_columns ix) (indexes s).

Definition without_column (col : string) (cols : list column) : list column :=
  filter (λ c, nocase (col_name c) ≠ nocase col) cols.

(** The entry of the index map is an index on another table than the
    one with key [tbl]. *)
Definition index_off (tbl : string) (entry : string * index) : Prop :=
  idx_table entry.2 ≠ tbl.

(** The entry of the trigger map is a trigger on another table than the
    one with key [tbl]. *)
Definition trigger_off (tbl : string) (entry : string * trigger) : Prop :=
  trg_table entry.2 ≠ tbl.

(** Every view and every trigger of [s] finds the names in its text
    when the tables are [ts]. *)
Definition resolved (s : schema) (ts : gmap string table) : Prop :=
  map_Forall (λ _ v, view_resolves v ts = true) (views s)
  ∧ map_Forall (λ _ g, trg_resolves g ts = true) (triggers s).

(** What [ALTER TABLE ... DROP COLUMN] checks: the column exists, is no
    primary key, is used by no foreign key of the table and by no index,
    and is not the only column; and the views and triggers of the database
    find their names, both with the tables as they are and with the tables
    as they will be, [after]. *)
Definition drop_column_ok (s : schema) (tbl : string) (t : table)
    (col : string) (after : gmap string table) : Prop :=
  nocase col ∈ col_names (tbl_columns t)
  ∧ Forall (λ c, nocase (col_name c) = nocase col → col_primary c = false)
      (tbl_columns t)
  ∧ (nocase col ∉ ((λ fk, nocase (fk_column fk)) <$> tbl_fkeys t))
  ∧ not_indexed s tbl col
  ∧ without_column col (tbl_columns t) ≠ []
  ∧ resolved s (tables s)
  ∧ resolved s after.

#[global] Instance name_free_dec s name : Decision (name_free s name).
Proof. unfold name_free. apply _. Defined.
#[global] Instance table_def_ok_dec cols fks : Decision (table_def_ok cols fks).
Proof. unfold table_def_ok. apply _. Defined.
#[global] Instance add_column_ok_dec t col : Decision (add_column_ok t col).
Proof. unfold add_column_ok. apply _. Defined.
#[global] Instance index_off_dec tbl entry : Decision (index_off tbl entry).
Proof. unfold index_off. apply _. Defined.
#[global] Instance trigger_off_dec tbl entry : Decision (trigger_off tbl entry).
Proof. unfold trigger_off. apply _. Defined.
#[global] Instance not_indexed_dec s tbl col : Decision (not_indexed s tbl col).
Proof. unfold not_indexed. apply _. Defined.
#[global] Instance resolved_dec s ts : Decision (resolved s ts).
Proof. unfold resolved. apply _. Defined.
#[global] Instance drop_column_ok_dec s tbl t col after :
  Decision (drop_column_ok s tbl t col after).
Proof. unfold drop_column_ok. apply _. Defined.

(** One statement: the schema it leaves, or [None] when SQLite rejects
    it. A name in the statement is looked up under [nocase]. [DROP TABLE]
    takes the indexes and the triggers of the table with it, and leaves
    the views that name the table as they are. *)
Definition exec (st : statement) (s : schema) : option schema :=
  match st with
  | CreateTable name cols fks =>
      if decide (name_free s (nocase name) ∧ table_def_ok cols fks)
      then Some (mkSchema (<[nocase name := mkTable cols fks]> (tables s))
                   (indexes s) (views s) (triggers s))
      else None
  | CreateIndex unique name tbl cols =>
      match tables s !! nocase tbl with
      | Some t =>
          if decide (name_free s (nocase name)
                     ∧ Forall (λ c, nocase c ∈ col_names (tbl_columns t)) cols)
          then Some (mkSchema (tables s)
                       (<[nocase name := mkIndex (nocase tbl) cols unique]>
                          (indexes s))
                       (views s) (triggers s))
          else None
      | None => None
      end
  | AddColumn tbl col =>
      match tables s !! nocase tbl with
      | Some t =>
          if decide (add_column_ok t col)
          then Some (mkSchema
                       (<[nocase tbl :=
                            mkTable (tbl_columns t ++ [col]) (tbl_fkeys t)]>
                          (tables s))
                       (indexes s) (views s) (triggers s))
          else None
      | None => None
      end
  | DropTable name =>
      match tables s !! nocase name with
      | Some _ =>
          Some (mkSchema (delete (nocase name) (tables s))
                  (filter (index_off (nocase name)) (indexes s))
                  (views s)
                  (filter (trigger_off (nocase name)) (triggers s)))
      | None => None
      end
  | DropIndex name =>
      match indexes s !! nocase name with
      | Some _ =>
          Some (mkSchema (tables s) (delete (nocase name) (indexes s))
                  (views s) (triggers s))
      | None => None
      end
  | DropColumn tbl col =>
      match tables s !! nocase tbl with
      | Some t =>
          let after :=
            <[nocase tbl :=
                mkTable (without_column col (tbl_columns t)) (tbl_fkeys t)]>
              (tables s) in
          if decide (drop_column_ok s (nocase tbl) t col after)
          then Some (mkSchema after (indexes s) (views s) (triggers s))
          else None
      | None => None
      end
  end.

(** A script: its statements in order, stopping at the first one that
    fails (the rejected [db.run] promise ends the [async] function). *)
Fixpoint run (script : list statement) (s : schema) : option schema :=
  match script with
  | [] => Some s
  | st :: rest => exec st s ≫= run rest
  end.

(** *** The two scripts *)

Definition text_column (name : string) : column :=
  mkColumn name "text" false false.

Definition products_gallery_columns : list column :=
  [ mkColumn "_order" "integer" true false;
    mkColumn "_parent_id" "integer" true false;
    mkColumn "id" "text" true true;
    mkColumn "image_id" "integer" false false ].

Definition products_gallery_fkeys : list foreign_key :=
  [ mkForeignKey "image_id" "media" "id" "no action" "set null";
    mkForeignKey "_parent_id" "products" "id" "no action" "cascade" ].

Definition version_gallery_columns : list column :=
  [ mkColumn "_order" "integer" true false;
    mkColumn "_parent_id" "integer" true false;
    mkColumn "id" "integer" true true;
    mkColumn "image_id" "integer" false false;
    mkColumn "_uuid" "text" false false ].

Definition version_gallery_fkeys : list foreign_key :=
  [ mkForeignKey "image_id" "media" "id" "no action" "set null";
    mkForeignKey "_parent_id" "_products_v" "id" "no action" "cascade" ].

Definition up : list statement :=
  [ CreateTable "products_gallery"
      products_gallery_columns products_gallery_fkeys;
    CreateIndex false "products_gallery_order_idx" "products_gallery" ["_order"];
    CreateIndex false "products_gallery_parent_id_idx" "products_gallery"
      ["_parent_id"];
    CreateIndex false "products_gallery_image_idx" "products_gallery" ["image_id"];
    CreateTable "_products_v_version_gallery"
      version_gallery_columns version_gallery_fkeys;
    CreateIndex false "_products_v_version_gallery_order_idx"
      "_products_v_version_gallery" ["_order"];
    CreateIndex false "_products_v_version_gallery_parent_id_idx"
      "_products_v_version_gallery" ["_parent_id"];
    CreateIndex false "_products_v_version_gallery_image_idx"
      "_products_v_version_gallery" ["image_id"];
    AddColumn "products" (text_column "title");
    AddColumn "products" (text_column "slug");
    AddColumn "products" (text_column "sku");
    AddColumn "products" (text_column "copy");
    CreateIndex true "products_slug_idx" "products" ["slug"];
    AddColumn "_products_v" (text_column "version_title");
    AddColumn "_products_v" (text_column "version_slug");
    AddColumn "_products_v" (text_column "version_sku");
    AddColumn "_products_v" (text_column "version_copy");
    CreateIndex false "_products_v_version_version_slug_idx" "_products_v"
      ["version_slug"] ].

Definition down : list statement :=
  [ DropTable "products_gallery";
    DropTable "_products_v_version_gallery";
    DropIndex "products_slug_idx";
    DropColumn "products" "title";
    DropColumn "products" "slug";
    DropColumn "products" "sku";
    DropColumn "products" "copy";
    DropIndex "_products_v_version_version_slug_idx";
    DropColumn "_products_v" "version_title";
    DropColumn "_products_v" "version_slug";
    DropColumn "_products_v" "version_sku";
    DropColumn "_products_v" "version_copy" ].

(** *** Schemas that SQLite can hold *)

Definition table_ok (t : table) : Prop :=
  tbl_columns t ≠ []
  ∧ Forall (λ fk, nocase (fk_column fk) ∈ col_names (tbl_columns t))
      (tbl_fkeys t).

Definition index_ok (s : schema) (ix : index) : Prop :=
  ∃ t, tables s !! idx_table ix = Some t
       ∧ Forall (λ c, nocase c ∈ col_names (tbl_columns t)) (idx_columns ix).

(** The trigger is attached to a table or to a view of the schema. *)
Definition trigger_ok (s : schema) (g : trigger) : Prop :=
  is_Some (tables s !! trg_table g) ∨ is_Some (views s !! trg_table g).

(** The keys of the map are names under [nocase]. *)
Definition keys_folded {A} (m : gmap string A) : Prop :=
  map_Forall (λ k _, nocase k = k) m.

Definition keys_ok (s : schema) : Prop :=
  keys_folded (tables s) ∧ keys_folded (indexes s)
  ∧ keys_folded (views s) ∧ keys_folded (triggers s).

(** Every table has a column and its foreign keys are on its own
    columns; every index is on columns of a table of the schema; every
    trigger is attached to a table or view of the schema; the four maps are
    keyed by names under [nocase]. Nothing is asked of the text of views
    and triggers: SQLite keeps a view or a trigger that names a table or
    column the database does not have. *)
Definition schema_ok (s : schema) : Prop :=
  map_Forall (λ _ t, table_ok t) (tables s)
  ∧ map_Forall (λ _ ix, index_ok s ix) (indexes s)
  ∧ map_Forall (λ _ g, trigger_ok s g) (triggers s)
  ∧ keys_ok s.

Definition empty_schema : schema := mkSchema ∅ ∅ ∅ ∅.

#[global] Instance table_ok_dec t : Decision (table_ok t).
Proof. unfold table_ok. apply _. Defined.

#[global] Instance index_ok_dec s ix : Decision (index_ok s ix).
Proof.
  unfold index_ok. destruct (tables s !! idx_table ix) as [t|].
  - destruct (decide (Forall (λ c, nocase c ∈ col_names (tbl_columns t))
                        (idx_columns ix))) as [H|H].
    + left. exists t. split; [reflexivity | exact H].
    + right. intros (t' & E & H'). injection E as <-. exact (H H').
  - right. intros (t' & E & _). discriminate E.
Defined.

#[global] Instance trigger_ok_dec s g : Decision (trigger_ok s g).
Proof. unfold trigger_ok. apply _. Defined.

#[global] Instance keys_folded_dec {A} (m : gmap string A) :
  Decision (keys_folded m).
Proof. unfold keys_folded. apply _. Defined.

#[global] Instance keys_ok_dec s : Decision (keys_ok s).
Proof. unfold keys_ok. apply _. Defined.

#[global] Instance schema_ok_dec s : Decision (schema_ok s).
Proof. unfold schema_ok. apply _. Defined.

(** *** The schema before and after [up] *)

Definition products_added : list column :=
  [ text_column "title"; text_column "slug"; text_column "sku";
    text_column "copy" ].

Definition version_added : list column :=
  [ text_column "version_title"; text_column "version_slug";
    text_column "version_sku"; text_column "version_copy" ].

Definition with_columns (t : table) (cols : list column) : table :=
  mkTable (tbl_columns t ++ cols) (tbl_fkeys t).

Definition created_names : list string :=
  [ "products_gallery"; "products_gallery_order_idx";
    "products_gallery_parent_id_idx"; "products_gallery_image_idx";
    "_products_v_version_gallery"; "_products_v_version_gallery_order_idx";
    "_products_v_version_gallery_parent_id_idx";
    "_products_v_version_gallery_image_idx";
    "products_slug_idx"; "_products_v_version_version_slug_idx" ].

(** The schema [up] leaves, given the tables [products] and
    [_products_v] it found. *)
Definition after_up (s : schema) (p pv : table) : schema :=
  mkSchema
    (<["_products_v" := with_columns pv version_added]>
       (<["products" := with_columns p products_added]>
          (<["_products_v_version_gallery" :=
               mkTable version_gallery_columns version_gallery_fkeys]>
             (<["products_gallery" :=
                  mkTable products_gallery_columns products_gallery_fkeys]>
                (tables s)))))
    (<["_products_v_version_version_slug_idx" :=
         mkIndex "_products_v" ["version_slug"] false]>
       (<["products_slug_idx" := mkIndex "products" ["slug"] true]>
          (<["_products_v_version_gallery_image_idx" :=
               mkIndex "_products_v_version_gallery" ["image_id"] false]>
             (<["_products_v_version_gallery_parent_id_idx" :=
                  mkIndex "_products_v_version_gallery" ["_parent_id"] false]>
                (<["_products_v_version_gallery_order_idx" :=
                     mkIndex "_products_v_version_gallery" ["_order"] false]>
                   (<["products_gallery_image_idx" :=
                        mkIndex "products_gallery" ["image_id"] false]>
                      (<["products_gallery_parent_id_idx" :=
                           mkIndex "products_gallery" ["_parent_id"] false]>
                         (<["products_gallery_order_idx" :=
                              mkIndex "products_gallery" ["_order"] false]>
                            (indexes s)))))))))
    (views s) (triggers s).

(** What [up] needs of the schema it starts from. *)
Definition up_ready (s : schema) (p pv : table) : Prop :=
  tables s !! "products" = Some p
  ∧ tables s !! "_products_v" = Some pv
  ∧ Forall (name_free s) created_names
  ∧ Forall (λ c, col_name c ∉ col_names (tbl_columns p)) products_added
  ∧ Forall (λ c, col_name c ∉ col_names (tbl_columns pv)) version_added.

(** A schema of the kind the migration meets: the tables the earlier
    migrations left, reduced to what matters here. *)
Definition sample_products : table :=
  mkTable [ mkColumn "id" "integer" true true;
            mkColumn "_status" "text" false false ] [].

Definition sample_products_v : table :=
  mkTable [ mkColumn "id" "integer" true true;
            mkColumn "parent_id" "integer" false false ]
          [ mkForeignKey "parent_id" "products" "id" "no action" "set null" ].

Definition sample_schema : schema :=
  mkSchema
    (<["products" := sample_products]>
       (<["_products_v" := sample_products_v]>
          (<["media" := mkTable [mkColumn "id" "integer" true true] []]> ∅)))
    (<["_products_v_parent_idx" := mkIndex "_products_v" ["parent_id"] false]> ∅)
    ∅ ∅.

(** *** Views and triggers while [down] drops the columns *)










End Migration.

(** ** The values of the [roles] field *)

Module UsersFlow.
Import Users.

(** The [options] of the [roles] field: the values a [select] accepts. *)
Definition roles_options : list string := ["admin"; "customer"].

(** The value is what the [roles] field accepts: an array of option
    values. *)
Definition roles_value_ok (v : value) : Prop :=
  ∃ rs, v = VArr rs ∧ Forall (λ r, r ∈ roles_options) rs.

End UsersFlow.

(** ** Words and slugs *)

Module Slugs.
Import Products.

(** The words of a string: its maximal runs of code units in [a-z0-9],
    in order. [cur] is the word being read. *)
Fixpoint split_words (cur : jsstring) (s : jsstring) : list jsstring :=
  match s with
  | [] => match cur with [] => [] | _ :: _ => [cur] end
  | c :: rest =>
      if is_alnum c then split_words (cur ++ [c]) rest
      else match cur with
           | [] => split_words [] rest
           | _ :: _ => cur :: split_words [] rest
           end
  end.

(** Words put together with one hyphen between neighbours. *)
Fixpoint join_hyphen (ws : list jsstring) : jsstring :=
  match ws with
  | [] => []
  | w :: rest =>
      match rest with
      | [] => w
      | _ :: _ => w ++ hyphen :: join_hyphen rest
      end
  end.

(** The code units of [s] that are in [a-z0-9], in order. *)
Definition alnums (s : jsstring) : jsstring :=
  filter (λ c, is_alnum c = true) s.

(** The value is a string. *)
Definition is_text (v : value) : Prop := ∃ s, v = VStr s.

End Slugs.

(** ** The collection [productsOverride] returns *)

Module Override.
Import Products.

(** A piece of configuration written as a literal: a string, a boolean,
    an array, or an object with its keys in the order they are written. *)
#[local] Unset Elimination Schemes.
Inductive config : Type :=
  | CStr (s : string)
  | CBool (b : bool)
  | CArr (elements : list config)
  | CObj (entries : list (string * config)).
#[local] Set Elimination Schemes.

(** [c.key], [None] for [undefined]. *)
Definition prop (key : string) (c : config) : option config :=
  match c with
  | CObj entries => (λ found, found.2.2) <$> list_find (λ kv, kv.1 = key) entries
  | _ => None
  end.

(** The fields [productsOverride] puts before the fields of the
    collection it is given. *)
Definition own_fields : list config :=
  [ CObj [("name", CStr "title"); ("type", CStr "text"); ("required", CBool true)];
    CObj [("name", CStr "slug"); ("type", CStr "text"); ("required", CBool true);
          ("unique", CBool true);
          ("admin", CObj [("position", CStr "sidebar")])];
    CObj [("name", CStr "sku"); ("type", CStr "text");
          ("admin", CObj [("position", CStr "sidebar")])];
    CObj [("name", CStr "copy"); ("type", CStr "richText")];
    CObj [("name", CStr "gallery"); ("type", CStr "array");
          ("fields",
           CArr [CObj [("name", CStr "image"); ("type", CStr "upload");
                       ("relationTo", CStr "media"); ("required", CBool true)]])] ].

(** A hook, as far as this collection uses what it is called with. *)
Definition hook : Type := string → option document → completion (option document).

Section WithRest.

(** The properties of a collection that [productsOverride] only copies. *)
Variable Rest : Type.

Record CollectionConfig : Type := mkCollection {
  rest : Rest;
  admin : option (gmap string config);
  hooks : option (gmap string (list hook));
  fields : list config
}.

Variable toLowerCase : jsstring → jsstring.

Definition productsOverride (defaultCollection : CollectionConfig)
    : CollectionConfig :=
  mkCollection
    (rest defaultCollection)
    (Some (<["useAsTitle" := CStr "title"]> (default ∅ (admin defaultCollection))))
    (Some (<["beforeValidate" :=
               default [] (hooks defaultCollection ≫= (.!! "beforeValidate"))
               ++ [beforeValidate toLowerCase]]>
             (default ∅ (hooks defaultCollection))))
    (own_fields ++ fields defaultCollection).

End WithRest.

(** The name of a field, when it has one that is a string. *)
Definition field_name (f : config) : option string :=
  match prop "name" f with
  | Some (CStr name) => Some name
  | _ => None
  end.

Definition is_array_field (f : config) : bool :=
  match prop "type" f with
  | Some (CStr "array") => true
  | _ => false
  end.

Definition is_unique_field (f : config) : bool :=
  match prop "unique" f with
  | Some (CBool true) => true
  | _ => false
  end.

End Override.

(** ** The schema before and after [down] *)

Module MigrationFlow.
Import Migration.

(** The table without the columns named like one of [cols]. *)
Definition without_columns (cols : list column) (t : table) : table :=
  mkTable (filter (λ c, nocase (col_name c) ∉ col_names cols) (tbl_columns t))
    (tbl_fkeys t).

Definition dropped_tables : list string :=
  [ "products_gallery"; "_products_v_version_gallery" ].

Definition dropped_indexes : list string :=
  [ "products_slug_idx"; "_products_v_version_version_slug_idx" ].

(** The schema [down] leaves, given the tables [products] and
    [_products_v] it found. The triggers of the two gallery tables go with
    them; the views stay. *)
Definition after_down (s : schema) (p pv : table) : schema :=
  mkSchema
    (<["_products_v" := without_columns version_added pv]>
       (<["products" := without_columns products_added p]>
          (delete "_products_v_version_gallery"
             (delete "products_gallery" (tables s)))))
    (delete "_products_v_version_version_slug_idx"
       (delete "products_slug_idx"
          (filter (index_off "_products_v_version_gallery")
             (filter (index_off "products_gallery") (indexes s)))))
    (views s)
    (filter (trigger_off "_products_v_version_gallery")
       (filter (trigger_off "products_gallery") (triggers s))).

(** What [down] needs of the schema it starts from. *)
Definition down_ready (s : schema) (p pv : table) : Prop :=
  tables s !! "products" = Some p
  ∧ tables s !! "_products_v" = Some pv
  ∧ is_Some (tables s !! "products_gallery")
  ∧ is_Some (tables s !! "_products_v_version_gallery")
  ∧ (∃ ix, indexes s !! "products_slug_idx" = Some ix
           ∧ idx_table ix ≠ "products_gallery"
           ∧ idx_table ix ≠ "_products_v_version_gallery")
  ∧ (∃ ix, indexes s !! "_products_v_version_version_slug_idx" = Some ix
           ∧ idx_table ix ≠ "products_gallery"
           ∧ idx_table ix ≠ "_products_v_version_gallery")
  ∧ Forall (λ c, col_name c ∈ col_names (tbl_columns p)) products_added
  ∧ Forall (λ c, col_name c ∈ col_names (tbl_columns pv)) version_added.

End MigrationFlow.

(** ** The cart store of the storefront guide *)

Module CartStore.

(** [CartItem.product]: the id of a product, or the product populated. *)
Inductive product_ref : Type :=
  | ProductId (id : string)
  | ProductDoc (id title : string) (price : Z).

(** A JS number keeps 53 significant bits. [js_round x] is the whole
    number [x] as a JS number holds it: [x] itself up to 2^53 in size, and
    beyond that the nearest number of 53 bits, the even one of two that are
    equally near. (Past the largest JS number, near 1.8e308, a sum is
    [Infinity] and no whole number; the store is not followed there.) *)
Definition js_round (x : Z) : Z :=
  let size := Z.abs x in
  let e := Z.log2 size - 52 in
  if e <=? 0 then x
  else
    let kept := Z.shiftr size e in
    let lost := size - Z.shiftl kept e in
    let half := Z.shiftl 1 (e - 1) in
    let kept' :=
      if (half <? lost) || ((lost =? half) && Z.odd kept) then kept + 1
      else kept in
    Z.sgn x * Z.shiftl kept' e.

(** [a + b] on JS numbers that are whole. *)
Definition js_add (a b : Z) : Z := js_round (a + b).

(** A line of the cart. Quantities are whole numbers, as the components
    pass them, held as JS numbers. *)
Record CartItem : Type := mkItem {
  item_id : string;
  product : product_ref;
  quantity : Z;
  variant : option string
}.

Record Cart : Type := mkCart {
  cart_id : option string;
  items : list CartItem;
  totals : option (Z * Z)
}.

(** The three atoms and the [cart] entry of [localStorage]. The entry is
    the JSON text of a cart; it is kept as the cart that
    [JSON.parse] reads back from it. *)
Record Store : Type := mkStore {
  cart : option Cart;
  isCartOpen : bool;
  isLoading : bool;
  stored : option Cart
}.

(** The store when the module is loaded on a page whose [localStorage]
    holds [entry]. *)
Definition loaded (entry : option Cart) : Store :=
  mkStore None false false entry.

(** [typeof item.product === 'string' ? item.product : item.product.id] *)
Definition productIdOf (it : CartItem) : string :=
  match product it with
  | ProductId id => id
  | ProductDoc id _ _ => id
  end.

(** [{ ...currentCart }] after [currentCart.items] was changed to [l]. *)
Definition with_items (c : Cart) (l : list CartItem) : Cart :=
  mkCart (cart_id c) l (totals c).

(** [item.quantity += n] *)
Definition bump (n : Z) (it : CartItem) : CartItem :=
  mkItem (item_id it) (product it) (js_add (quantity it) n) (variant it).

(** [cart.set({ ...currentCart })] and
    [localStorage.setItem('cart', JSON.stringify(currentCart))]. *)
Definition publish (c : Cart) (st : Store) : Store :=
  mkStore (Some c) (isCartOpen st) (isLoading st) (Some c).

Definition initCart (st : Store) : Store :=
  match stored st with
  | Some c => mkStore (Some c) (isCartOpen st) (isLoading st) (stored st)
  | None => st
  end.

(** [uuid] is what [crypto.randomUUID()] returns. *)
Definition addItem (uuid productId : string) (n : Z) (variantId : option string)
    (st : Store) : Store :=
  let currentCart := default (mkCart None [] None) (cart st) in
  let items' :=
    match list_find (λ it, productIdOf it = productId) (items currentCart) with
    | Some (existingIndex, _) => alter (bump n) existingIndex (items currentCart)
    | None =>
        items currentCart ++ [mkItem uuid (ProductId productId) n variantId]
    end in
  let c := with_items currentCart items' in
  mkStore (Some c) (isCartOpen st) false (Some c).

Definition removeItem (itemId : string) (st : Store) : Store :=
  match cart st with
  | None => st
  | Some currentCart =>
      publish
        (with_items currentCart
           (filter (λ it, item_id it ≠ itemId) (items currentCart)))
        st
  end.

Definition incrementItem (itemId : string) (st : Store) : Store :=
  match cart st with
  | None => st
  | Some currentCart =>
      match list_find (λ it, item_id it = itemId) (items currentCart) with
      | Some (i, _) =>
          publish (with_items currentCart (alter (bump 1) i (items currentCart)))
            st
      | None => st
      end
  end.

(** The item is changed in place, so [removeItem] finds the cart with the
    lowered quantity in the atom. *)
Definition decrementItem (itemId : string) (st : Store) : Store :=
  match cart st with
  | None => st
  | Some currentCart =>
      match list_find (λ it, item_id it = itemId) (items currentCart) with
      | Some (i, item) =>
          let lowered :=
            with_items currentCart (alter (bump (-1)) i (items currentCart)) in
          if js_add (quantity item) (-1) <=? 0
          then removeItem itemId
                 (mkStore (Some lowered) (isCartOpen st) (isLoading st) (stored st))
          else publish lowered st
      | None => st
      end
  end.

Definition clearCart (st : Store) : Store :=
  mkStore (Some (mkCart None [] None)) (isCartOpen st) (isLoading st) None.

Definition toggleCart (st : Store) : Store :=
  mkStore (cart st) (negb (isCartOpen st)) (isLoading st) (stored st).

(** [CartToggle]:
    [$cart?.items.reduce((sum, item) => sum + item.quantity, 0) || 0] *)
Definition itemCount (c : option Cart) : Z :=
  match c with
  | Some c => foldl (λ sum it, js_add sum (quantity it)) 0 (items c)
  | None => 0
  end.

(** The lines a cart shows: none when there is no cart. *)
Definition lines (c : option Cart) : list CartItem :=
  match c with Some c => items c | None => [] end.

(** One of the calls a page makes on the store: [uuid] goes with
    [addItem]. *)
Inductive action : Type :=
  | InitCart
  | AddItem (uuid productId : string) (n : Z) (variantId : option string)
  | RemoveItem (itemId : string)
  | IncrementItem (itemId : string)
  | DecrementItem (itemId : string)
  | ClearCart
  | ToggleCart.

Definition perform (a : action) (st : Store) : Store :=
  match a with
  | InitCart => initCart st
  | AddItem uuid productId n variantId => addItem uuid productId n variantId st
  | RemoveItem itemId => removeItem itemId st
  | IncrementItem itemId => incrementItem itemId st
  | DecrementItem itemId => decrementItem itemId st
  | ClearCart => clearCart st
  | ToggleCart => toggleCart st
  end.

(** [localStorage] agrees with the atom: it holds the cart of the atom,
    or holds nothing while the atom shows no line. *)
Definition in_step (st : Store) : Prop :=
  stored st = cart st ∨ (stored st = None ∧ lines (cart st) = []).

(** Every line has a positive quantity, and no two lines share an id or
    a product. *)
Definition lines_ok (l : list CartItem) : Prop :=
  Forall (λ it, 0 < quantity it) l
  ∧ NoDup (item_id <$> l)
  ∧ NoDup (productIdOf <$> l).

Definition cart_ok (c : option Cart) : Prop := lines_ok (lines c).

(** What the invariants ask of a call: an [addItem] adds a positive
    quantity and its fresh id is not the id of a line. *)
Definition sound_call (a : action) (st : Store) : Prop :=
  match a with
  | AddItem uuid _ n _ => 0 < n ∧ uuid ∉ item_id <$> lines (cart st)
  | _ => True
  end.

Definition store_ok (st : Store) : Prop :=
  cart_ok (cart st) ∧ cart_ok (stored st).

(** A cart with two lines, in step with its storage entry. *)
Definition sample_cart : Cart :=
  mkCart None
    [ mkItem "i1" (ProductId "p1") 2 None;
      mkItem "i2" (ProductDoc "p2" "Mug" 900) 1 (Some "v1") ]
    None.

Definition sample_store : Store :=
  mkStore (Some sample_cart) false false (Some sample_cart).

(** The quantities of a list of lines, added up as whole numbers. *)
Fixpoint total (l : list CartItem) : Z :=
  match l with
  | [] => 0
  | it :: rest => quantity it + total rest
  end.

(** The sizes of the quantities, added up. *)
Fixpoint weight (l : list CartItem) : Z :=
  match l with
  | [] => 0
  | it :: rest => Z.abs (quantity it) + weight rest
  end.

(** The largest size up to which every whole number is a JS number:
    [Number.MAX_SAFE_INTEGER + 1]. *)
Definition js_exact : Z := 2 ^ 53.

(** What a line is, its quantity apart. *)
Definition line_key (it : CartItem) : string * product_ref * option string :=
  (item_id it, product it, variant it).

End CartStore.

(** ** Theorems: access predicates *)

Module AccessFacts.
Import Access.

Lemma hasRole_spec role user :
  hasRole role user = true ↔ roles_contain role user.
Proof.
  unfold hasRole, roles_contain. split.
  - destruct user as [u|]; [|discriminate].
    destruct (user_roles u) as [rs|] eqn:E; [|discriminate].
    intros H. apply bool_decide_eq_true in H. eauto.
  - intros (u & rs & -> & -> & Hin). by apply bool_decide_eq_true.
Qed.

Lemma hasRole_false role user :
  hasRole role user = false ↔ ¬ roles_contain role user.
Proof.
  rewrite <- hasRole_spec. destruct (hasRole role user); split; congruence.
Qed.

(** C2. [adminOnly] answers [true] exactly when the user exists and
    ['admin'] is an element of its roles list; for an anonymous caller,
    a user without a roles list, and a roles list without ['admin'] it
    answers [false]. *)
Theorem adminOnly_iff_admin_role :
  ∀ user : option User,
    (adminOnly user = true ↔ roles_contain "admin" user)
    ∧ (user = None → adminOnly user = false)
    ∧ (∀ u, user = Some u → user_roles u = None → adminOnly user = false)
    ∧ (∀ u rs, user = Some u → user_roles u = Some rs → "admin" ∉ rs →
         adminOnly user = false).
Proof.
  intros user. split; [apply hasRole_spec|].
  repeat split.
  - by intros ->.
  - intros u -> Hr. unfold adminOnly, hasRole. by rewrite Hr.
  - intros u rs -> Hr Hn. unfold adminOnly, hasRole. rewrite Hr.
    by apply bool_decide_eq_false.
Qed.

Lemma adminOnly_iff_admin_role_witness :
  adminOnly (Some sample_admin) = true
  ∧ adminOnly None = false
  ∧ adminOnly (Some sample_roleless) = false
  ∧ adminOnly (Some sample_customer) = false.
Proof.
  split_and!.
  - apply (proj1 (adminOnly_iff_admin_role (Some sample_admin))).
    apply hasRole_spec. reflexivity.
  - apply (proj1 (proj2 (adminOnly_iff_admin_role None))). reflexivity.
  - apply (proj1 (proj2 (proj2 (adminOnly_iff_admin_role _))) sample_roleless);
      reflexivity.
  - apply (proj2 (proj2 (proj2 (adminOnly_iff_admin_role _)))
             sample_customer ["customer"]);
      [ reflexivity | reflexivity
      | apply (bool_decide_eq_false_1 ("admin" ∈ ["customer"])); reflexivity ].
Defined.

(** C3. [adminOrCustomerOwner] allows a user whose roles contain
    ['admin']; answers the query [{ customer: { equals: user.id } }] for
    an authenticated user (one with an id, that is with [user.id]
    truthy) who is no admin; and denies when there is no user. *)
Theorem adminOrCustomerOwner_cases :
  ∀ user : option User,
    (roles_contain "admin" user → adminOrCustomerOwner user = Allow)
    ∧ (∀ u, user = Some u → ¬ roles_contain "admin" user → user_id u ≠ 0 →
         adminOrCustomerOwner user = WhereEquals "customer" (ONum (user_id u)))
    ∧ (user = None → adminOrCustomerOwner user = Deny).
Proof.
  intros user. unfold adminOrCustomerOwner. repeat split.
  - intros H. apply hasRole_spec in H. by rewrite H.
  - intros u -> Hn Hid. apply hasRole_false in Hn. rewrite Hn.
    by apply Z.eqb_neq in Hid as ->.
  - by intros ->.
Qed.

Lemma adminOrCustomerOwner_cases_witness :
  adminOrCustomerOwner (Some sample_admin) = Allow
  ∧ adminOrCustomerOwner (Some sample_customer) = WhereEquals "customer" (ONum 7)
  ∧ adminOrCustomerOwner None = Deny.
Proof.
  split_and!.
  - apply (proj1 (adminOrCustomerOwner_cases _)).
    apply hasRole_spec. reflexivity.
  - apply (proj1 (proj2 (adminOrCustomerOwner_cases _)) sample_customer);
      [reflexivity | apply hasRole_false; reflexivity | discriminate].
  - apply (proj2 (proj2 (adminOrCustomerOwner_cases None))). reflexivity.
Defined.

(** The remaining case: a user object whose id is the number 0 and who
    is no admin is denied, since [user?.id] is then falsy. *)
Lemma adminOrCustomerOwner_zero_id (u : User) :
  ¬ roles_contain "admin" (Some u) → user_id u = 0 →
  adminOrCustomerOwner (Some u) = Deny.
Proof.
  intros Hn Hid. unfold adminOrCustomerOwner.
  apply hasRole_false in Hn. rewrite Hn, Hid. reflexivity.
Qed.

(** C5. [adminOrPublishedStatus] allows a user whose roles contain
    ['admin'], and otherwise, for a signed-in user who is no admin and
    for an anonymous caller alike, answers the query
    [{ _status: { equals: 'published' } }]. *)
Theorem adminOrPublishedStatus_cases :
  ∀ user : option User,
    (roles_contain "admin" user → adminOrPublishedStatus user = Allow)
    ∧ (¬ roles_contain "admin" user →
         adminOrPublishedStatus user = WhereEquals "_status" (OStr "published"))
    ∧ (user = None →
         adminOrPublishedStatus user = WhereEquals "_status" (OStr "published")).
Proof.
  intros user. unfold adminOrPublishedStatus. repeat split.
  - intros H. apply hasRole_spec in H. by rewrite H.
  - intros Hn. apply hasRole_false in Hn. by rewrite Hn.
  - by intros ->.
Qed.

Lemma adminOrPublishedStatus_cases_witness :
  adminOrPublishedStatus (Some sample_admin) = Allow
  ∧ adminOrPublishedStatus (Some sample_customer)
    = WhereEquals "_status" (OStr "published")
  ∧ adminOrPublishedStatus None = WhereEquals "_status" (OStr "published").
Proof.
  split_and!.
  - apply (proj1 (adminOrPublishedStatus_cases _)).
    apply hasRole_spec. reflexivity.
  - apply (proj1 (proj2 (adminOrPublishedStatus_cases _))).
    apply hasRole_false. reflexivity.
  - apply (proj2 (proj2 (adminOrPublishedStatus_cases None))). reflexivity.
Defined.

(** C10. [customerOnlyFieldAccess] answers [true] exactly when the
    user's roles contain ['customer']; a user whose roles are exactly
    [['admin']] is denied. *)
Theorem customerOnlyFieldAccess_iff_customer_role :
  ∀ user : option User,
    (customerOnlyFieldAccess user = true ↔ roles_contain "customer" user)
    ∧ (∀ u, user = Some u → user_roles u = Some ["admin"] →
         customerOnlyFieldAccess user = false).
Proof.
  intros user. split; [apply hasRole_spec|].
  intros u -> Hr. unfold customerOnlyFieldAccess, hasRole. by rewrite Hr.
Qed.

Lemma customerOnlyFieldAccess_iff_customer_role_witness :
  customerOnlyFieldAccess (Some sample_customer) = true
  ∧ customerOnlyFieldAccess (Some sample_admin) = false.
Proof.
  split.
  - apply (proj1 (customerOnlyFieldAccess_iff_customer_role _)).
    apply hasRole_spec. reflexivity.
  - apply (proj2 (customerOnlyFieldAccess_iff_customer_role _) sample_admin);
      reflexivity.
Defined.

End AccessFacts.

(** ** Theorems: the Users collection *)

Module UsersFacts.
Import Users.

Lemma beforeChange_other_operation operation totalDocs (data : document) :
  operation ≠ "create" → beforeChange operation totalDocs data = data.
Proof. intros H. unfold beforeChange. by rewrite bool_decide_eq_false_2. Qed.

Lemma withDefaults_explicit (data : document) v :
  data !! "roles" = Some v → withDefaults data = data.
Proof. intros H. unfold withDefaults. by rewrite H. Qed.

(** C4. On the create of a user: with no user in the table, the hook
    sets [roles] to exactly [['admin']] whatever roles the input
    carried, and touches no other field; with some user in the table it
    hands the data back as it got it, so that a user created without
    explicit roles keeps the default [['customer']] of the field. *)
Theorem first_user_admin_then_default :
  ∀ (totalDocs : N) (data : document),
    (totalDocs = 0%N →
       beforeChange "create" totalDocs data !! "roles" = Some (VArr ["admin"])
       ∧ ∀ k, k ≠ "roles" → beforeChange "create" totalDocs data !! k = data !! k)
    ∧ (totalDocs ≠ 0%N → beforeChange "create" totalDocs data = data)
    ∧ (totalDocs ≠ 0%N → data !! "roles" = None →
         beforeChange "create" totalDocs (withDefaults data) !! "roles"
         = Some (VArr ["customer"])).
Proof.
  intros totalDocs data. unfold beforeChange. simpl.
  split; [|split].
  - intros ->. simpl. split; [apply lookup_insert_eq|].
    intros k Hk. by apply lookup_insert_ne.
  - intros H. by apply N.eqb_neq in H as ->.
  - intros H Hr. apply N.eqb_neq in H as ->.
    unfold withDefaults. rewrite Hr. apply lookup_insert_eq.
Qed.

Lemma first_user_admin_then_default_witness :
  beforeChange "create" 0 (<["roles" := VArr ["customer"]]> ∅) !! "roles"
  = Some (VArr ["admin"])
  ∧ beforeChange "create" 1 (<["roles" := VArr ["customer"; "admin"]]> ∅)
    = <["roles" := VArr ["customer"; "admin"]]> ∅
  ∧ beforeChange "create" 1 (withDefaults ∅) !! "roles"
    = Some (VArr ["customer"]).
Proof.
  split_and!.
  - apply (proj1 (first_user_admin_then_default 0%N _)). reflexivity.
  - apply (proj1 (proj2 (first_user_admin_then_default 1%N _))). discriminate.
  - apply (proj2 (proj2 (first_user_admin_then_default 1%N ∅)));
      [discriminate | reflexivity].
Defined.

End UsersFacts.

(** ** Theorems: the products override *)

Module ProductsFacts.
Import Products.

Lemma is_alnum_spec c :
  is_alnum c = true ↔ (97 ≤ c ≤ 122)%N ∨ (48 ≤ c ≤ 57)%N.
Proof.
  unfold is_alnum.
  rewrite orb_true_iff, !andb_true_iff, !N.leb_le. tauto.
Qed.

Lemma hyphen_not_alnum : is_alnum hyphen = false.
Proof. reflexivity. Qed.

Lemma alnum_not_hyphen c : is_alnum c = true → c ≠ hyphen.
Proof. intros H ->. discriminate. Qed.

(** *** The first replacement *)

(** The flag only matters at the head of the input: a run already being
    consumed swallows the code units outside the class that follow. *)
Lemma collapse_runs_unfold c rest :
  collapse_runs false (c :: rest)
  = if is_alnum c then c :: collapse_runs false rest
    else hyphen :: collapse_runs false (skip_run rest).
Proof.
  simpl. destruct (is_alnum c); [done|]. f_equal.
  induction rest as [|d rest IH]; [done|].
  simpl. destruct (is_alnum d) eqn:E; [|done].
  simpl. by rewrite E.
Qed.

Lemma collapse_runs_chars in_run s : slug_chars (collapse_runs in_run s).
Proof.
  unfold slug_chars. revert in_run.
  induction s as [|c rest IH]; intros in_run; simpl; [constructor|].
  destruct (is_alnum c) eqn:E; [by constructor; auto|].
  destruct in_run; [apply IH|]. constructor; auto.
Qed.

Lemma collapse_runs_adjacent s :
  ∀ in_run,
    no_adjacent_hyphens (collapse_runs in_run s)
    ∧ (in_run = true → head (collapse_runs in_run s) ≠ Some hyphen).
Proof.
  induction s as [|c rest IH]; intros in_run; simpl.
  - split; [by intros i|done].
  - destruct (is_alnum c) eqn:E.
    + split.
      * intros [|i]; simpl.
        -- intros [= ->]. discriminate.
        -- apply (IH false).
      * intros _ [= ->]. discriminate.
    + destruct in_run; [apply IH|]. split; [|done].
      intros [|i]; simpl.
      * intros _. rewrite <- head_lookup. by apply (IH true).
      * apply (IH true).
Qed.

(** *** The second replacement *)

Lemma trim_hyphens_inner_snoc s c :
  trim_hyphens false (s ++ [c])
  = if (c =? hyphen)%N then s else s ++ [c].
Proof.
  induction s as [|d s IH].
  - simpl. rewrite andb_true_r. by destruct (c =? hyphen)%N.
  - cbn [trim_hyphens app]. fold (s ++ [c]).
    rewrite bool_decide_eq_false_2 by (destruct s; simpl; done).
    simpl. rewrite andb_false_r, IH. by destruct (c =? hyphen)%N.
Qed.

(** Trimming takes away at most the first and the last code unit. *)
Lemma trim_hyphens_infix s :
  ∃ pre post, s = pre ++ trim_hyphens true s ++ post
    ∧ (pre = [] ∨ pre = [hyphen]) ∧ (post = [] ∨ post = [hyphen]).
Proof.
  destruct s as [|c s]; [by exists [], []; auto|].
  assert (Hin : ∃ post, s = trim_hyphens false s ++ post
                       ∧ (post = [] ∨ post = [hyphen])).
  { induction s as [|d s' _] using rev_ind; [by exists []; auto|].
    rewrite trim_hyphens_inner_snoc.
    destruct (d =? hyphen)%N eqn:E.
    - apply N.eqb_eq in E as ->. exists [hyphen]. auto.
    - exists []. rewrite app_nil_r. auto. }
  destruct Hin as (post & Hs & Hpost).
  simpl. destruct (c =? hyphen)%N eqn:E; simpl.
  - apply N.eqb_eq in E as ->. exists [hyphen], post. simpl. rewrite <- Hs. auto.
  - exists [], post. simpl. rewrite <- Hs. auto.
Qed.

Lemma no_adjacent_hyphens_infix pre s post :
  no_adjacent_hyphens (pre ++ s ++ post) → no_adjacent_hyphens s.
Proof.
  intros H i Hi Hi'.
  assert (Hlk : ∀ j x, s !! j = Some x →
                       (pre ++ s ++ post) !! (length pre + j)%nat = Some x).
  { intros j x Hj. rewrite lookup_app_r by lia.
    replace (length pre + j - length pre)%nat with j by lia.
    by apply lookup_app_l_Some. }
  apply (H (length pre + i)%nat (Hlk _ _ Hi)).
  rewrite <- Nat.add_succ_r. by apply Hlk.
Qed.

Lemma trim_hyphens_inner_head s :
  head s ≠ Some hyphen → head (trim_hyphens false s) ≠ Some hyphen.
Proof.
  destruct s as [|c s]; [done|]. simpl. intros Hc.
  destruct (c =? hyphen)%N eqn:E.
  - apply N.eqb_eq in E as ->. done.
  - done.
Qed.

Lemma trim_hyphens_inner_last s :
  no_adjacent_hyphens s → last (trim_hyphens false s) ≠ Some hyphen.
Proof.
  induction s as [|c s _] using rev_ind; [done|].
  intros Hadj. rewrite trim_hyphens_inner_snoc.
  destruct (c =? hyphen)%N eqn:E.
  - apply N.eqb_eq in E as ->. intros Hl.
    apply last_Some in Hl as [s' ->].
    apply (Hadj (length s')).
    + rewrite <- app_assoc. simpl. by apply list_lookup_middle.
    + replace (S (length s')) with (length (s' ++ [hyphen]))
        by (rewrite length_app; simpl; lia).
      by apply list_lookup_middle.
  - rewrite last_snoc. intros [= ->]. discriminate.
Qed.

Section WithCaseMapping.
Variable toLowerCase : jsstring → jsstring.

(** C1. For every title, the slug the hook derives from it (lowercase,
    each run of code units outside [a-z0-9] replaced by one hyphen, a
    hyphen at either end removed) holds only code units of [a-z0-9] and
    hyphens, has no two adjacent hyphens, and neither starts nor ends
    with a hyphen. *)
Theorem slugify_shape :
  ∀ title : jsstring,
    slug_chars (slugify toLowerCase title)
    ∧ no_adjacent_hyphens (slugify toLowerCase title)
    ∧ no_edge_hyphen (slugify toLowerCase title).
Proof.
  intros title. unfold slugify.
  set (r := collapse_runs false (toLowerCase title)).
  assert (Hchars : slug_chars r) by apply collapse_runs_chars.
  assert (Hadj : no_adjacent_hyphens r) by apply collapse_runs_adjacent.
  clearbody r.
  destruct (trim_hyphens_infix r) as (pre & post & Hr & _ & _).
  split; [|split].
  - unfold slug_chars in *. rewrite Hr in Hchars.
    by apply Forall_app in Hchars as [_ [? _]%Forall_app].
  - rewrite Hr in Hadj. by eapply no_adjacent_hyphens_infix.
  - clear Hr. destruct r as [|c s]; [done|].
    assert (Hs : no_adjacent_hyphens s).
    { apply (no_adjacent_hyphens_infix [c] s []). simpl. by rewrite app_nil_r. }
    cbn [trim_hyphens orb andb]. rewrite andb_true_r.
    destruct (c =? hyphen)%N eqn:E.
    + apply N.eqb_eq in E as ->. split.
      * apply trim_hyphens_inner_head. rewrite head_lookup. by apply (Hadj 0%nat).
      * by apply trim_hyphens_inner_last.
    + apply N.eqb_neq in E. split; [by intros [= ->]|].
      rewrite last_cons.
      pose proof (trim_hyphens_inner_last s Hs).
      destruct (last (trim_hyphens false s)); [done|]. by intros [= ->].
Qed.

(** When the hook fires: on create and update, with a truthy title and
    a falsy slug. *)
Lemma beforeValidate_fires operation (d : document) title :
  operation = "create" ∨ operation = "update" →
  d !! "title" = Some (VStr title) → title ≠ [] →
  truthy (d !! "slug") = false →
  beforeValidate toLowerCase operation (Some d)
  = Normal (Some (<["slug" := VStr (slugify toLowerCase title)]> d)).
Proof.
  intros Hop Ht Hne Hs. unfold beforeValidate.
  assert (bool_decide (operation = "create")
          || bool_decide (operation = "update") = true) as ->.
  { apply orb_true_iff. destruct Hop; [left|right]; by apply bool_decide_eq_true. }
  rewrite Hs, Ht. simpl. by destruct title.
Qed.

Lemma beforeValidate_other_operation operation data :
  operation ≠ "create" → operation ≠ "update" →
  beforeValidate toLowerCase operation data = Normal data.
Proof.
  intros H1 H2. unfold beforeValidate.
  by rewrite !bool_decide_eq_false_2.
Qed.

(** C8. The hook leaves alone what it is not meant for: on every
    input that carries a slug (one that [data?.slug] finds truthy) it
    hands the data back as it got it, the slug included, and so it
    does on every input without a title (the title missing, [null] or
    empty, or no data at all). *)
Theorem beforeValidate_frame :
  ∀ (operation : string) (d : document),
    (truthy (d !! "slug") = true →
       beforeValidate toLowerCase operation (Some d) = Normal (Some d))
    ∧ (truthy (d !! "title") = false →
       beforeValidate toLowerCase operation (Some d) = Normal (Some d))
    ∧ beforeValidate toLowerCase operation None = Normal None.
Proof.
  intros operation d. unfold beforeValidate.
  destruct (bool_decide (operation = "create")
            || bool_decide (operation = "update")); [|done].
  split; [|split]; [intros -> | intros -> | ]; [|done|done].
  by rewrite andb_false_r.
Qed.

(** An empty string in [slug] is falsy, so the hook treats it like a
    missing slug and derives one. *)
Lemma beforeValidate_empty_slug operation (d : document) title :
  operation = "create" ∨ operation = "update" →
  d !! "title" = Some (VStr title) → title ≠ [] →
  d !! "slug" = Some (VStr []) →
  beforeValidate toLowerCase operation (Some d)
  = Normal (Some (<["slug" := VStr (slugify toLowerCase title)]> d)).
Proof.
  intros Hop Ht Hne Hs. apply beforeValidate_fires; try done. by rewrite Hs.
Qed.

(** C7. Running the hook again on what it handed back changes
    nothing: the title is the same and the slug, now the derived one,
    stays. The hook hands a document back whenever the title is text
    (or missing). *)
Theorem beforeValidate_idempotent :
  ∀ (operation : string) (data : option document),
    (∀ out, beforeValidate toLowerCase operation data = Normal out →
            beforeValidate toLowerCase operation out = Normal out)
    ∧ (title_is_text data →
         ∃ out, beforeValidate toLowerCase operation data = Normal out).
Proof.
  intros operation data. split.
  - intros out. unfold beforeValidate.
    destruct (bool_decide (operation = "create")
              || bool_decide (operation = "update")); [|by intros [= ->]].
    destruct data as [d|]; [|by intros [= <-]].
    destruct (truthy (d !! "title") && negb (truthy (d !! "slug"))) eqn:E.
    + destruct (d !! "title") as [[| | |title|]|] eqn:Ht; try done.
      intros [= <-].
      rewrite lookup_insert_ne by done. rewrite lookup_insert_eq, Ht.
      apply andb_true_iff in E as [E1 _]. rewrite E1. simpl.
      destruct (slugify toLowerCase title) eqn:Es; [|done].
      simpl. by rewrite insert_insert_eq.
    + intros [= <-]. by rewrite E.
  - intros Htext. unfold beforeValidate.
    destruct (bool_decide (operation = "create")
              || bool_decide (operation = "update")); [|eauto].
    destruct data as [d|]; [|eauto].
    destruct (truthy (d !! "title") && negb (truthy (d !! "slug"))) eqn:E;
      [|eauto].
    destruct (d !! "title") as [v|] eqn:Ht; [|done].
    destruct (Htext d v eq_refl Ht) as [->|[s ->]]; [done|eauto].
Qed.

Lemma collapse_runs_no_alnum s :
  Forall (λ c, is_alnum c = false) s →
  collapse_runs true s = []
  ∧ (collapse_runs false s = [] ∨ collapse_runs false s = [hyphen]).
Proof.
  induction 1 as [|c s Hc _ [IH _]]; simpl; [auto|].
  rewrite Hc, IH. auto.
Qed.

(** C9. For a non-empty title whose lowercased form has no code unit
    in [a-z0-9], the hook (on create or update, no slug given) sets the
    slug to the empty string; the slug is then present on the document,
    not missing. *)
Theorem beforeValidate_punctuation_title :
  ∀ (operation : string) (d : document) (title : jsstring),
    operation = "create" ∨ operation = "update" →
    d !! "title" = Some (VStr title) → title ≠ [] →
    truthy (d !! "slug") = false →
    Forall (λ c, is_alnum c = false) (toLowerCase title) →
    beforeValidate toLowerCase operation (Some d)
    = Normal (Some (<["slug" := VStr []]> d))
    ∧ slug_of (Some (<["slug" := VStr []]> d)) = Some (VStr []).
Proof.
  intros operation d title Hop Ht Hne Hs Hall.
  split; [|apply lookup_insert_eq].
  rewrite (beforeValidate_fires _ _ title) by done.
  do 3 f_equal. unfold slugify.
  by destruct (collapse_runs_no_alnum _ Hall) as [_ [-> | ->]].
Qed.

End WithCaseMapping.

(** ['Hi, You!'] gives ['hi-you']. *)
Example slugify_sample :
  slugify toLowerCase_latin [72; 105; 44; 32; 89; 111; 117; 33]%N
  = [104; 105; 45; 121; 111; 117]%N.
Proof. reflexivity. Qed.

(** ['--a--'] gives ['a']: each run is one hyphen before the ends are
    trimmed. *)
Example slugify_hyphens :
  slugify toLowerCase_latin [45; 45; 97; 45; 45]%N = [97]%N.
Proof. reflexivity. Qed.

(** The second replacement alone takes one hyphen from each end:
    ['---'] gives ['-']. *)
Example trim_hyphens_three : trim_hyphens true [45; 45; 45]%N = [45]%N.
Proof. reflexivity. Qed.

Lemma beforeValidate_frame_witness :
  beforeValidate toLowerCase_latin "create" (Some sample_own_slug)
  = Normal (Some sample_own_slug)
  ∧ beforeValidate toLowerCase_latin "update" (Some ∅) = Normal (Some ∅).
Proof.
  split.
  - apply (proj1 (beforeValidate_frame toLowerCase_latin "create"
                    sample_own_slug)).
    reflexivity.
  - apply (proj1 (proj2 (beforeValidate_frame toLowerCase_latin "update" ∅))).
    reflexivity.
Defined.

Lemma title_is_text_sample : title_is_text (Some sample_titled).
Proof.
  intros d v [= <-] Hv. vm_compute in Hv. injection Hv as <-. right. eauto.
Qed.

Lemma beforeValidate_idempotent_witness :
  beforeValidate toLowerCase_latin "create" (Some sample_slugged)
  = Normal (Some sample_slugged)
  ∧ ∃ out, beforeValidate toLowerCase_latin "create" (Some sample_titled)
           = Normal out.
Proof.
  split.
  - apply (proj1 (beforeValidate_idempotent toLowerCase_latin "create"
                    (Some sample_titled))).
    vm_compute. reflexivity.
  - apply (proj2 (beforeValidate_idempotent toLowerCase_latin "create"
                    (Some sample_titled))).
    exact title_is_text_sample.
Defined.

Lemma beforeValidate_punctuation_title_witness :
  beforeValidate toLowerCase_latin "create" (Some sample_punctuation)
  = Normal (Some (<["slug" := VStr []]> sample_punctuation))
  ∧ slug_of (Some (<["slug" := VStr []]> sample_punctuation)) = Some (VStr []).
Proof.
  apply (beforeValidate_punctuation_title toLowerCase_latin "create"
           sample_punctuation [33; 63]%N).
  - left. reflexivity.
  - reflexivity.
  - discriminate.
  - reflexivity.
  - repeat constructor.
Defined.

End ProductsFacts.

(** ** Theorems: the migration *)

Module MigrationFacts.
Import Migration.

(** *** Names *)

Lemma lower_lower c : lower (lower c) = lower c.
Proof. by destruct c as [[] [] [] [] [] [] [] []]. Qed.

Lemma nocase_nocase name : nocase (nocase name) = nocase name.
Proof.
  induction name as [|c rest IH]; [done|]. simpl. by rewrite lower_lower, IH.
Qed.

(** The names written in the two scripts are in lower case already. *)
Ltac nocase_names :=
  repeat match goal with
    | H : context [nocase (String ?c ?r)] |- _ =>
        let y := eval vm_compute in (nocase (String c r)) in
        change (nocase (String c r)) with y in H
    | |- context [nocase (String ?c ?r)] =>
        let y := eval vm_compute in (nocase (String c r)) in
        change (nocase (String c r)) with y
    end.

(** *** What a successful statement tells *)

Lemma exec_CreateTable_Some name cols fks s s' :
  exec (CreateTable name cols fks) s = Some s' →
  name_free s (nocase name) ∧ table_def_ok cols fks
  ∧ s' = mkSchema (<[nocase name := mkTable cols fks]> (tables s)) (indexes s)
           (views s) (triggers s).
Proof. simpl. case_decide as H; [|done]. intros [= <-]. tauto. Qed.

Lemma exec_CreateIndex_Some unique name tbl cols s s' :
  exec (CreateIndex unique name tbl cols) s = Some s' →
  ∃ t, tables s !! nocase tbl = Some t ∧ name_free s (nocase name)
       ∧ Forall (λ c, nocase c ∈ col_names (tbl_columns t)) cols
       ∧ s' = mkSchema (tables s)
                (<[nocase name := mkIndex (nocase tbl) cols unique]> (indexes s))
                (views s) (triggers s).
Proof.
  simpl. destruct (tables s !! nocase tbl) as [t|]; [|done].
  case_decide as H; [|done]. intros [= <-]. exists t. tauto.
Qed.

Lemma exec_AddColumn_Some tbl col s s' :
  exec (AddColumn tbl col) s = Some s' →
  ∃ t, tables s !! nocase tbl = Some t ∧ add_column_ok t col
       ∧ s' = mkSchema
                (<[nocase tbl := mkTable (tbl_columns t ++ [col]) (tbl_fkeys t)]>
                   (tables s))
                (indexes s) (views s) (triggers s).
Proof.
  simpl. destruct (tables s !! nocase tbl) as [t|]; [|done].
  case_decide as H; [|done]. intros [= <-]. by exists t.
Qed.

Ltac norm_lookup :=
  repeat match goal with
    | H : context [ <[?k := _]> _ !! ?k ] |- _ => rewrite lookup_insert_eq in H
    | H : context [ <[?k := _]> _ !! ?k' ] |- _ =>
        rewrite lookup_insert_ne in H by done
    end.

Ltac step H :=
  let s1 := fresh "s" in
  let E := fresh "E" in
  apply bind_Some in H as (s1 & E & H);
  first
    [ apply exec_CreateTable_Some in E as ((? & ? & ?) & _ & ->)
    | apply exec_CreateIndex_Some in E as (? & ? & (? & ? & ?) & _ & ->)
    | apply exec_AddColumn_Some in E as (? & ? & (? & _ & _) & ->) ];
  cbv beta in H; cbn [tables indexes views triggers col_name text_column] in *;
  nocase_names; norm_lookup; simplify_eq;
  cbn [tbl_columns tbl_fkeys] in *.

Lemma up_Some s s' :
  run up s = Some s' → ∃ p pv, up_ready s p pv ∧ s' = after_up s p pv.
Proof.
  unfold up. intros H. cbn [run] in H.
  do 18 step H.
  match goal with
  | Hp : tables s !! "products" = Some ?p,
    Hpv : tables s !! "_products_v" = Some ?pv |- _ => exists p, pv
  end.
  unfold col_names in *.
  repeat match goal with
    | H : _ ∉ _ <$> (_ ++ _) |- _ =>
        rewrite fmap_app in H; apply not_elem_of_app in H as [H _]
    end.
  split.
  - unfold up_ready, created_names, products_added, version_added, name_free.
    repeat first [done | constructor].
  - unfold after_up, with_columns, products_added, version_added.
    rewrite !insert_insert_eq, <- !app_assoc. reflexivity.
Qed.


(** *** Statements that go through *)








Lemma run_step st rest s s1 :
  exec st s = Some s1 → run (st :: rest) s = run rest s1.
Proof. intros H. cbn [run]. by rewrite H. Qed.

(** *** Indexes and triggers of a schema that SQLite can hold *)
















(** *** The invariant *)

Lemma schema_ok_empty : schema_ok empty_schema.
Proof. unfold schema_ok, keys_ok. split_and!; apply map_Forall_empty. Qed.

Lemma col_names_without col c cols :
  c ∈ col_names cols → c ≠ nocase col →
  c ∈ col_names (without_column col cols).
Proof.
  unfold col_names, without_column.
  intros (x & -> & Hx)%list_elem_of_fmap Hne.
  apply (list_elem_of_fmap_2 (λ c, nocase (col_name c))).
  by apply list_elem_of_filter.
Qed.

Lemma index_ok_tables s ts vs tr ix :
  index_ok s ix →
  (∀ t, tables s !! idx_table ix = Some t →
        ∃ t', ts !! idx_table ix = Some t'
              ∧ ∀ c, c ∈ idx_columns ix →
                     nocase c ∈ col_names (tbl_columns t) →
                     nocase c ∈ col_names (tbl_columns t')) →
  index_ok (mkSchema ts (indexes s) vs tr) ix.
Proof.
  intros (t & Ht & Hcols) H. destruct (H t Ht) as (t' & Ht' & Hsub).
  exists t'. split; [done|].
  rewrite Forall_forall in Hcols |- *. intros c Hc. apply Hsub; auto.
Qed.

Lemma keys_folded_insert {A} name (x : A) (m : gmap string A) :
  keys_folded m → keys_folded (<[nocase name := x]> m).
Proof. intros H. apply map_Forall_insert_2; [apply nocase_nocase|done]. Qed.

Lemma keys_folded_delete {A} k (m : gmap string A) :
  keys_folded m → keys_folded (delete k m).
Proof. apply map_Forall_delete. Qed.

Lemma keys_folded_filter {A} (P : string * A → Prop)
    `{!∀ x, Decision (P x)} (m : gmap string A) :
  keys_folded m → keys_folded (filter P m).
Proof. intros Hm k x [Hk _]%map_lookup_filter_Some. by eapply Hm. Qed.

Lemma exec_keys_ok st s s' : keys_ok s → exec st s = Some s' → keys_ok s'.
Proof.
  intros (Ht & Hi & Hv & Hg) Hexec. unfold keys_ok.
  destruct st as [name cols fks|unique name tbl cols|tbl col|name|name|tbl col];
    simpl in Hexec.
  - case_decide; [|done]. injection Hexec as <-.
    split_and!; try done. by apply keys_folded_insert.
  - destruct (tables s !! nocase tbl); [|done]. case_decide; [|done].
    injection Hexec as <-. split_and!; try done. by apply keys_folded_insert.
  - destruct (tables s !! nocase tbl); [|done]. case_decide; [|done].
    injection Hexec as <-. split_and!; try done. by apply keys_folded_insert.
  - destruct (tables s !! nocase name); [|done]. injection Hexec as <-.
    split_and!; try done;
      [by apply keys_folded_delete|by apply keys_folded_filter..].
  - destruct (indexes s !! nocase name); [|done]. injection Hexec as <-.
    split_and!; try done. by apply keys_folded_delete.
  - destruct (tables s !! nocase tbl); [|done]. case_decide; [|done].
    injection Hexec as <-. split_and!; try done. by apply keys_folded_insert.
Qed.

(** A trigger stays attached while its table stays. *)
Lemma trigger_ok_tables s ts ixs tr g :
  trigger_ok s g →
  (is_Some (tables s !! trg_table g) → is_Some (ts !! trg_table g)) →
  trigger_ok (mkSchema ts ixs (views s) tr) g.
Proof. intros [H|H] Hts; [left; by apply Hts|by right]. Qed.

Lemma exec_schema_ok st s s' :
  schema_ok s → exec st s = Some s' → schema_ok s'.
Proof.
  intros (Htbl & Hidx & Htrg & Hkeys) Hexec.
  cut (map_Forall (λ _ t, table_ok t) (tables s')
       ∧ map_Forall (λ _ ix, index_ok s' ix) (indexes s')
       ∧ map_Forall (λ _ g, trigger_ok s' g) (triggers s')).
  { intros (? & ? & ?). pose proof (exec_keys_ok st s s' Hkeys Hexec) as Hk.
    unfold schema_ok. tauto. }
  destruct st as [name cols fks|unique name tbl cols|tbl col|name|name|tbl col].
  - apply exec_CreateTable_Some in Hexec as ((Hfree & _) & (Hne & _ & Hfk) & ->).
    split_and!; cbn [tables indexes views triggers].
    + apply map_Forall_insert_2; [by split|done].
    + intros n ix Hn. apply (index_ok_tables s); [by eapply Hidx|].
      intros t Ht. exists t. split; [|done].
      rewrite lookup_insert_ne; [done|]. intros E. rewrite <- E in Ht. congruence.
    + intros n g Hn. apply (trigger_ok_tables s); [by eapply Htrg|].
      intros [t Ht]. rewrite lookup_insert_ne; [by exists t|].
      intros E. rewrite <- E in Ht. congruence.
  - apply exec_CreateIndex_Some in Hexec as (t & Ht & _ & Hcols & ->).
    split_and!; cbn [tables indexes views triggers]; [done| |].
    + apply map_Forall_insert_2; [by exists t|].
      intros n ix Hn. destruct (Hidx n ix Hn) as (t' & ? & ?). by exists t'.
    + intros n g Hn. by apply (trigger_ok_tables s); [eapply Htrg|].
  - apply exec_AddColumn_Some in Hexec as (t & Ht & _ & ->).
    assert (Hsub : ∀ c, c ∈ col_names (tbl_columns t) →
                        c ∈ col_names (tbl_columns t ++ [col])).
    { intros c Hc. unfold col_names. rewrite fmap_app, elem_of_app. by left. }
    destruct (Htbl _ t Ht) as [Hne Hfk].
    split_and!; cbn [tables indexes views triggers].
    + apply map_Forall_insert_2; [|done]. split; cbn [tbl_columns tbl_fkeys].
      * by destruct (tbl_columns t).
      * eapply Forall_impl; [exact Hfk|]. intros fk. apply Hsub.
    + intros n ix Hn. apply (index_ok_tables s); [by eapply Hidx|].
      intros t' Ht'. destruct (decide (idx_table ix = nocase tbl)) as [E|E].
      * rewrite E in Ht' |- *. rewrite lookup_insert_eq.
        eexists. split; [done|]. cbn [tbl_columns].
        intros c _. replace t' with t by congruence. apply Hsub.
      * exists t'. by rewrite lookup_insert_ne.
    + intros n g Hn. apply (trigger_ok_tables s); [by eapply Htrg|].
      intros Hsome. by apply lookup_insert_is_Some'; right.
  - simpl in Hexec. destruct (tables s !! nocase name) as [t|] eqn:Ht; [|done].
    injection Hexec as <-. split_and!; cbn [tables indexes views triggers].
    + by apply map_Forall_delete.
    + intros n ix [Hn Hoff]%map_lookup_filter_Some.
      destruct (Hidx n ix Hn) as (t' & Ht' & Hcols). exists t'.
      split; [|done]. cbn [tables]. by rewrite lookup_delete_ne.
    + intros n g [Hn Hoff]%map_lookup_filter_Some.
      apply (trigger_ok_tables s); [by eapply Htrg|].
      intros Hsome. by rewrite lookup_delete_ne.
  - simpl in Hexec. destruct (indexes s !! nocase name) as [ix|]; [|done].
    injection Hexec as <-. split_and!; cbn [tables indexes views triggers];
      [done| |].
    + intros n ix' Hn%lookup_delete_Some. destruct Hn as [_ Hn].
      destruct (Hidx n ix' Hn) as (t' & ? & ?). by exists t'.
    + intros n g Hn. by apply (trigger_ok_tables s); [eapply Htrg|].
  - simpl in Hexec. destruct (tables s !! nocase tbl) as [t|] eqn:Ht; [|done].
    case_decide as Hdrop; [|done]. injection Hexec as <-.
    destruct Hdrop as (_ & _ & Hnofk & Hnoidx & Hne & _).
    destruct (Htbl _ t Ht) as [_ Hfk].
    split_and!; cbn [tables indexes views triggers].
    + apply map_Forall_insert_2; [|done]. split; cbn [tbl_columns tbl_fkeys]; [done|].
      rewrite Forall_forall in Hfk |- *. intros fk Hin.
      apply col_names_without; [by apply Hfk|].
      intros E. apply Hnofk. rewrite <- E.
      by apply (list_elem_of_fmap_2 (λ fk, nocase (fk_column fk))).
    + intros n ix Hn. apply (index_ok_tables s); [by eapply Hidx|].
      intros t' Ht'. destruct (decide (idx_table ix = nocase tbl)) as [E|E].
      * rewrite E in Ht' |- *. rewrite lookup_insert_eq.
        eexists. split; [done|]. cbn [tbl_columns].
        intros c Hc Hc'. replace t' with t in Hc' by congruence.
        apply col_names_without; [done|]. intros Ec.
        apply (Hnoidx n ix Hn E). rewrite <- Ec. by apply list_elem_of_fmap_2.
      * exists t'. by rewrite lookup_insert_ne.
    + intros n g Hn. apply (trigger_ok_tables s); [by eapply Htrg|].
      intros Hsome. by apply lookup_insert_is_Some'; right.
Qed.

Lemma run_schema_ok script :
  ∀ s s', schema_ok s → run script s = Some s' → schema_ok s'.
Proof.
  induction script as [|st rest IH]; intros s s' Hok Hrun; simpl in Hrun.
  - by injection Hrun as <-.
  - apply bind_Some in Hrun as (s1 & Hexec & Hrun).
    eapply IH; [|exact Hrun]. by eapply exec_schema_ok.
Qed.

(** Whatever scripts built the database from nothing, its schema is one
    SQLite can hold. *)
Corollary built_schema_ok script s :
  run script empty_schema = Some s → schema_ok s.
Proof. apply run_schema_ok, schema_ok_empty. Qed.

(** *** [up] goes through on the schemas that are ready for it *)

Lemma exec_CreateTable_ok name cols fks ts ixs vs tr :
  ts !! nocase name = None → ixs !! nocase name = None →
  vs !! nocase name = None → table_def_ok cols fks →
  exec (CreateTable name cols fks) (mkSchema ts ixs vs tr)
  = Some (mkSchema (<[nocase name := mkTable cols fks]> ts) ixs vs tr).
Proof. intros. simpl. by rewrite decide_True. Qed.

Lemma exec_CreateIndex_ok unique name tbl t cols ts ixs vs tr :
  ts !! nocase tbl = Some t → ts !! nocase name = None →
  ixs !! nocase name = None → vs !! nocase name = None →
  Forall (λ c, nocase c ∈ col_names (tbl_columns t)) cols →
  exec (CreateIndex unique name tbl cols) (mkSchema ts ixs vs tr)
  = Some (mkSchema ts (<[nocase name := mkIndex (nocase tbl) cols unique]> ixs)
            vs tr).
Proof. intros Ht ????. simpl. rewrite Ht. by rewrite decide_True. Qed.

Lemma exec_AddColumn_ok tbl t col ts ixs vs tr :
  ts !! nocase tbl = Some t → add_column_ok t col →
  exec (AddColumn tbl col) (mkSchema ts ixs vs tr)
  = Some (mkSchema
            (<[nocase tbl := mkTable (tbl_columns t ++ [col]) (tbl_fkeys t)]> ts)
            ixs vs tr).
Proof. intros Ht ?. simpl. rewrite Ht. by rewrite decide_True. Qed.

Ltac lookups :=
  nocase_names;
  rewrite ?lookup_insert_ne by done;
  first [done | by rewrite lookup_insert_eq].

Ltac create_table :=
  erewrite run_step;
    [|apply exec_CreateTable_ok;
      [lookups | lookups | lookups | by apply (bool_decide_unpack _)]];
  nocase_names.

Ltac create_index :=
  erewrite run_step;
    [|eapply exec_CreateIndex_ok;
      [lookups | lookups | lookups | lookups
      | first
          [ by apply (bool_decide_unpack _)
          | cbn [tbl_columns]; unfold col_names; repeat constructor;
            rewrite ?fmap_app, ?elem_of_app;
            cbn [fmap list_fmap col_name text_column];
            rewrite ?list_elem_of_singleton; nocase_names; intuition ] ]];
  nocase_names.

Ltac add_column :=
  erewrite run_step;
    [|eapply exec_AddColumn_ok;
      [lookups
      | split; [|done]; cbn [tbl_columns col_name text_column];
        nocase_names;
        unfold col_names in *; rewrite ?fmap_app, ?not_elem_of_app;
        split_and?;
        first [assumption | by apply (bool_decide_unpack _)]]];
  nocase_names; cbn [tbl_columns tbl_fkeys].

Lemma up_ready_ok s p pv :
  up_ready s p pv → run up s = Some (after_up s p pv).
Proof.
  intros (Hp & Hpv & Hfree & Hpc & Hpvc).
  unfold created_names, name_free, products_added, version_added in *.
  repeat match goal with
    | H : Forall _ (_ :: _) |- _ => apply Forall_cons in H as [? H]
    | H : Forall _ [] |- _ => clear H
    | H : _ ∧ _ |- _ => destruct H
    end.
  cbn [col_name text_column] in *.
  destruct s as [ts ixs vs tr]. cbn [tables indexes views triggers] in *.
  unfold up, after_up, with_columns. cbn [tables indexes views triggers].
  create_table. do 3 create_index.
  create_table. do 3 create_index.
  do 4 add_column. create_index.
  do 4 add_column. create_index.
  cbn [run]. by rewrite !insert_insert_eq, <- !app_assoc.
Qed.

Lemma up_Some_iff s s' :
  run up s = Some s' ↔ ∃ p pv, up_ready s p pv ∧ s' = after_up s p pv.
Proof.
  split; [apply up_Some|]. intros (p & pv & H & ->). by apply up_ready_ok.
Qed.


(** *** The model on schemas with other spellings, views and triggers *)

(** A table [PRODUCTS_GALLERY] is in the way of [up], whatever its
    spelling, and so is a column [Title] of [products]. *)
Example up_meets_other_spelling :
  run [CreateTable "PRODUCTS_GALLERY" [mkColumn "a" "text" false false] []; 
       CreateTable "products_gallery" products_gallery_columns
         products_gallery_fkeys] sample_schema = None
  ∧ run (AddColumn "products" (text_column "Title") :: up) sample_schema = None
  ∧ is_Some (run (AddColumn "PRODUCTS" (text_column "note") :: up) sample_schema).
Proof. split_and!; vm_compute; eauto. Qed.

(** A view of the name is in the way of a table or an index; a trigger
    of the name is not. *)
Example up_meets_view_name :
  run up (mkSchema (tables sample_schema) (indexes sample_schema)
            (<["products_slug_idx" := mkView (λ _, true)]> ∅) ∅) = None
  ∧ is_Some
      (run up (mkSchema (tables sample_schema) (indexes sample_schema) ∅
                 (<["products_slug_idx" := mkTrigger "products" (λ _, true)]> ∅))).
Proof. split; vm_compute; eauto. Qed.

(** *** [down] after [up] *)




End MigrationFacts.

(** ** More on the access predicates *)

Module AccessMore.
Import Access AccessFacts.

(** The field-level variant for administrators makes the same check as
    [adminOnly]. *)
Lemma adminOnlyFieldAccess_iff_admin_role :
  ∀ user : option User,
    adminOnlyFieldAccess user = true ↔ roles_contain "admin" user.
Proof. intros user. apply hasRole_spec. Qed.

(** X1. What each answer of [adminOrCustomerOwner] tells about the
    caller: it allows only administrators; a query it answers is always on
    [customer] and always for the caller's own, non-zero id; and it denies
    exactly the callers who are no administrators and have no (truthy)
    id. *)
Theorem adminOrCustomerOwner_result :
  ∀ user : option User,
    (adminOrCustomerOwner user = Allow ↔ roles_contain "admin" user)
    ∧ (∀ field v,
         adminOrCustomerOwner user = WhereEquals field v ↔
         ¬ roles_contain "admin" user
         ∧ ∃ u, user = Some u ∧ user_id u ≠ 0
                ∧ field = "customer" ∧ v = ONum (user_id u))
    ∧ (adminOrCustomerOwner user = Deny ↔
         ¬ roles_contain "admin" user ∧ ∀ u, user = Some u → user_id u = 0).
Proof.
  intros user. unfold adminOrCustomerOwner.
  destruct (hasRole "admin" user) eqn:Hadmin.
  - apply hasRole_spec in Hadmin. split_and!; [done| |]; try intros field v;
      split; try done; by intros [? _].
  - apply hasRole_false in Hadmin. destruct user as [u|].
    + destruct (Z.eqb_spec (user_id u) 0) as [E|E]; simpl.
      * split_and!; [done| |].
        -- intros field v. split; [done|].
           intros (_ & u' & [= <-] & ? & _). done.
        -- split; [|done]. intros _. split; [done|]. by intros u' [= <-].
      * split_and!; [done| |].
        -- intros field v. split.
           ++ intros [= <- <-]. split; [done|]. by exists u.
           ++ intros (_ & u' & [= <-] & _ & -> & ->). done.
        -- split; [done|]. intros [_ H]. destruct E. by apply H.
    + split_and!; [done| |].
      * intros field v. split; [done|]. by intros (_ & u & ? & _).
      * split; [|done]. intros _. split; [done|]. by intros u.
Qed.

(** X2. [adminOrPublishedStatus] never denies: it allows exactly the
    administrators, and the only query it answers is the one for published
    documents, whoever calls. *)
Theorem adminOrPublishedStatus_result :
  ∀ user : option User,
    adminOrPublishedStatus user ≠ Deny
    ∧ (adminOrPublishedStatus user = Allow ↔ roles_contain "admin" user)
    ∧ (∀ field v, adminOrPublishedStatus user = WhereEquals field v →
                  field = "_status" ∧ v = OStr "published").
Proof.
  intros user. unfold adminOrPublishedStatus.
  destruct (hasRole "admin" user) eqn:Hadmin.
  - apply hasRole_spec in Hadmin. by split_and!.
  - apply hasRole_false in Hadmin. split_and!; [done|done|].
    by intros field v [= <- <-].
Qed.

Lemma hasRole_mono role id (rs rs' : list string) :
  rs ⊆ rs' →
  hasRole role (Some (mkUser id (Some rs))) = true →
  hasRole role (Some (mkUser id (Some rs'))) = true.
Proof.
  intros Hsub. simpl. rewrite !bool_decide_eq_true. apply Hsub.
Qed.

(** X3. Roles only ever add access: when every role of a user is also
    among the roles [rs'], whatever one of the five predicates grants the
    user it grants with [rs'] too. The order of the roles and repeated
    roles therefore make no difference. *)
Theorem more_roles_never_revoke :
  ∀ (id : Z) (rs rs' : list string),
    rs ⊆ rs' →
    (adminOnly (Some (mkUser id (Some rs))) = true →
       adminOnly (Some (mkUser id (Some rs'))) = true)
    ∧ (adminOnlyFieldAccess (Some (mkUser id (Some rs))) = true →
       adminOnlyFieldAccess (Some (mkUser id (Some rs'))) = true)
    ∧ (customerOnlyFieldAccess (Some (mkUser id (Some rs))) = true →
       customerOnlyFieldAccess (Some (mkUser id (Some rs'))) = true)
    ∧ (adminOrCustomerOwner (Some (mkUser id (Some rs))) = Allow →
       adminOrCustomerOwner (Some (mkUser id (Some rs'))) = Allow)
    ∧ (adminOrPublishedStatus (Some (mkUser id (Some rs))) = Allow →
       adminOrPublishedStatus (Some (mkUser id (Some rs'))) = Allow)
    ∧ (adminOrCustomerOwner (Some (mkUser id (Some rs))) ≠ Deny →
       adminOrCustomerOwner (Some (mkUser id (Some rs'))) ≠ Deny).
Proof.
  intros id rs rs' Hsub.
  set (u := Some (mkUser id (Some rs))). set (u' := Some (mkUser id (Some rs'))).
  pose proof (hasRole_mono "admin" id rs rs' Hsub) as Ha.
  pose proof (hasRole_mono "customer" id rs rs' Hsub) as Hc.
  fold u u' in Ha, Hc.
  unfold adminOnly, adminOnlyFieldAccess, customerOnlyFieldAccess,
    adminOrCustomerOwner, adminOrPublishedStatus.
  split_and!; try done.
  - destruct (hasRole "admin" u); [|by (subst u; simpl; destruct (negb _))].
    by rewrite Ha.
  - destruct (hasRole "admin" u); [|done]. by rewrite Ha.
  - destruct (hasRole "admin" u).
    + by rewrite Ha.
    + destruct (hasRole "admin" u'); [done|]. subst u u'. simpl. done.
Qed.

Lemma adminOrCustomerOwner_result_witness :
  adminOrCustomerOwner (Some sample_admin) = Allow
  ∧ adminOrCustomerOwner (Some sample_customer) = WhereEquals "customer" (ONum 7)
  ∧ adminOrCustomerOwner None = Deny.
Proof.
  split_and!.
  - apply (proj1 (adminOrCustomerOwner_result (Some sample_admin))).
    apply hasRole_spec. reflexivity.
  - apply (proj1 (proj2 (adminOrCustomerOwner_result (Some sample_customer)))).
    split; [apply hasRole_false; reflexivity|].
    exists sample_customer. repeat split. discriminate.
  - apply (proj2 (proj2 (adminOrCustomerOwner_result None))).
    split; [apply hasRole_false; reflexivity|]. discriminate.
Defined.

Lemma adminOrPublishedStatus_result_witness :
  adminOrPublishedStatus (Some sample_admin) = Allow.
Proof.
  apply (proj1 (proj2 (adminOrPublishedStatus_result (Some sample_admin)))).
  apply hasRole_spec. reflexivity.
Defined.

Lemma more_roles_never_revoke_witness :
  adminOrCustomerOwner (Some (mkUser 7 (Some ["customer"; "admin"]))) = Allow.
Proof.
  apply (more_roles_never_revoke 7 ["admin"] ["customer"; "admin"]).
  - intros r Hr. apply (bool_decide_unpack _). revert r Hr.
    apply Forall_forall. repeat constructor.
  - reflexivity.
Defined.

End AccessMore.

(** ** More on the Users collection *)

Module UsersMore.
Import Users UsersFlow.

(** X4. Whatever the operation and the count, the hook changes no field
    other than [roles]; on an operation other than create it hands the data
    back as it got it; and running it twice is running it once. *)
Theorem beforeChange_only_roles :
  ∀ (operation : string) (totalDocs : N) (data : document),
    (∀ k, k ≠ "roles" → beforeChange operation totalDocs data !! k = data !! k)
    ∧ (operation ≠ "create" → beforeChange operation totalDocs data = data)
    ∧ beforeChange operation totalDocs (beforeChange operation totalDocs data)
      = beforeChange operation totalDocs data.
Proof.
  intros operation totalDocs data. unfold beforeChange.
  destruct (bool_decide_reflect (operation = "create")) as [->|Hop].
  - destruct (totalDocs =? 0)%N; split_and!; try done.
    + intros k Hk. by rewrite lookup_insert_ne.
    + by rewrite insert_insert_eq.
  - by split_and!.
Qed.

(** X5. A created user always has roles the field accepts: when the
    roles in the input, if any, are an array of the field's options, then
    after the default and the hook [roles] is present and is such an
    array, whatever the count. *)
Theorem created_roles_valid :
  ∀ (totalDocs : N) (input : document),
    (∀ v, input !! "roles" = Some v → roles_value_ok v) →
    ∃ v, beforeChange "create" totalDocs (withDefaults input) !! "roles" = Some v
         ∧ roles_value_ok v.
Proof.
  intros totalDocs input Hin. unfold beforeChange. simpl.
  destruct (totalDocs =? 0)%N.
  - exists (VArr ["admin"]). rewrite lookup_insert_eq. split; [done|].
    exists ["admin"]. split; [done|]. repeat constructor.
  - unfold withDefaults. destruct (input !! "roles") as [v|] eqn:E.
    + exists v. by split; [|apply Hin].
    + exists (VArr ["customer"]). rewrite lookup_insert_eq. split; [done|].
      exists ["customer"]. split; [done|]. repeat constructor.
Qed.

Lemma beforeChange_only_roles_witness :
  beforeChange "update" 0 (<["email" := VStr [97]%N]> ∅)
  = <["email" := VStr [97]%N]> ∅.
Proof.
  apply (proj1 (proj2 (beforeChange_only_roles "update" 0 _))). discriminate.
Defined.

Lemma created_roles_valid_witness :
  ∃ v, beforeChange "create" 3 (withDefaults ∅) !! "roles" = Some v
       ∧ roles_value_ok v.
Proof.
  apply (created_roles_valid 3 ∅). intros v Hv. vm_compute in Hv. discriminate.
Defined.

End UsersMore.

(** ** More on slugs *)

Module SlugFacts.
Import Products ProductsFacts Slugs.

(** *** What the two replacements keep *)

Lemma collapse_runs_alnums in_run s :
  alnums (collapse_runs in_run s) = alnums s.
Proof.
  unfold alnums. revert in_run.
  induction s as [|c rest IH]; intros in_run; [done|]. simpl.
  destruct (is_alnum c) eqn:E.
  - rewrite !filter_cons_True by done. by rewrite IH.
  - rewrite (filter_cons_False _ c rest) by congruence.
    destruct in_run; [apply IH|].
    rewrite filter_cons_False by (by rewrite hyphen_not_alnum). apply IH.
Qed.

Lemma trim_hyphens_alnums at_start s :
  alnums (trim_hyphens at_start s) = alnums s.
Proof.
  unfold alnums. revert at_start.
  induction s as [|c rest IH]; intros at_start; [done|]. simpl.
  destruct ((c =? hyphen)%N && (at_start || bool_decide (rest = []))) eqn:E.
  - apply andb_true_iff in E as [->%N.eqb_eq _].
    rewrite filter_cons_False by (by rewrite hyphen_not_alnum). apply IH.
  - rewrite !filter_cons. by rewrite IH.
Qed.

Lemma collapse_runs_length in_run s :
  (length (collapse_runs in_run s) ≤ length s)%nat.
Proof.
  revert in_run. induction s as [|c rest IH]; intros in_run; simpl; [done|].
  destruct (is_alnum c); simpl; [specialize (IH false); lia|].
  destruct in_run; simpl; specialize (IH true); lia.
Qed.

Lemma trim_hyphens_length at_start s :
  (length (trim_hyphens at_start s) ≤ length s)%nat.
Proof.
  revert at_start. induction s as [|c rest IH]; intros at_start; simpl; [done|].
  destruct (_ && _); simpl; specialize (IH false); lia.
Qed.

(** *** Strings that already are slugs *)

Lemma no_adjacent_hyphens_tail c s :
  no_adjacent_hyphens (c :: s) → no_adjacent_hyphens s.
Proof. intros H i. apply (H (S i)). Qed.

Lemma collapse_runs_slug s :
  slug_chars s → no_adjacent_hyphens s →
  collapse_runs false s = s
  ∧ (head s ≠ Some hyphen → collapse_runs true s = s).
Proof.
  unfold slug_chars. induction 1 as [|c rest Hc Hrest IH]; intros Hadj; [done|].
  specialize (IH (no_adjacent_hyphens_tail _ _ Hadj)) as [IH1 IH2].
  simpl. destruct Hc as [Hc | ->].
  - rewrite Hc, IH1. done.
  - rewrite hyphen_not_alnum. split; [|done].
    rewrite IH2; [done|]. rewrite head_lookup. by apply (Hadj 0%nat).
Qed.

Lemma trim_hyphens_inner_keep s :
  last s ≠ Some hyphen → trim_hyphens false s = s.
Proof.
  induction s as [|c s _] using rev_ind; [done|].
  rewrite last_snoc, trim_hyphens_inner_snoc. intros H.
  destruct (N.eqb_spec c hyphen) as [->|]; done.
Qed.

Lemma trim_hyphens_slug s :
  no_edge_hyphen s → trim_hyphens true s = s.
Proof.
  intros [Hhead Hlast]. destruct s as [|c rest]; [done|].
  cbn [trim_hyphens orb]. rewrite andb_true_r.
  destruct (N.eqb_spec c hyphen) as [->|Hc]; [done|].
  f_equal. apply trim_hyphens_inner_keep.
  intros Hl. apply Hlast. rewrite last_cons. by rewrite Hl.
Qed.

(** The shape of what the second replacement leaves, whatever the case
    mapping produced. *)
Lemma trim_hyphens_shape r :
  slug_chars r → no_adjacent_hyphens r →
  slug_chars (trim_hyphens true r)
  ∧ no_adjacent_hyphens (trim_hyphens true r)
  ∧ no_edge_hyphen (trim_hyphens true r).
Proof.
  intros Hchars Hadj.
  destruct (trim_hyphens_infix r) as (pre & post & Hr & _ & _).
  split_and!.
  - unfold slug_chars in *. rewrite Hr in Hchars.
    by apply Forall_app in Hchars as [_ [? _]%Forall_app].
  - rewrite Hr in Hadj. by eapply no_adjacent_hyphens_infix.
  - clear Hr. destruct r as [|c s]; [done|].
    pose proof (no_adjacent_hyphens_tail _ _ Hadj) as Hs.
    cbn [trim_hyphens orb]. rewrite andb_true_r.
    destruct (N.eqb_spec c hyphen) as [->|Hc].
    + split; [|by apply trim_hyphens_inner_last].
      apply trim_hyphens_inner_head. rewrite head_lookup. by apply (Hadj 0%nat).
    + split; [by intros [= ->]|]. rewrite last_cons.
      pose proof (trim_hyphens_inner_last s Hs).
      destruct (last (trim_hyphens false s)); [done|]. by intros [= ->].
Qed.

Section WithCaseMapping.
Variable toLowerCase : jsstring → jsstring.

Lemma slugify_is_slug title :
  slug_chars (slugify toLowerCase title)
  ∧ no_adjacent_hyphens (slugify toLowerCase title)
  ∧ no_edge_hyphen (slugify toLowerCase title).
Proof.
  apply trim_hyphens_shape;
    [apply collapse_runs_chars | apply collapse_runs_adjacent].
Qed.

(** X7. The slug keeps every letter and digit of the lowercased title,
    in order, and nothing else but hyphens; it is never longer than the
    lowercased title. *)
Theorem slugify_keeps_alnums :
  ∀ title : jsstring,
    alnums (slugify toLowerCase title) = alnums (toLowerCase title)
    ∧ (length (slugify toLowerCase title) ≤ length (toLowerCase title))%nat.
Proof.
  intros title. unfold slugify. split.
  - by rewrite trim_hyphens_alnums, collapse_runs_alnums.
  - etrans; [apply trim_hyphens_length | apply collapse_runs_length].
Qed.

(** X8. The derived slug is empty exactly when the lowercased title has
    no code unit in [a-z0-9]. *)
Theorem slugify_empty_iff :
  ∀ title : jsstring,
    slugify toLowerCase title = []
    ↔ Forall (λ c, is_alnum c = false) (toLowerCase title).
Proof.
  intros title. split.
  - intros Hempty.
    assert (Ha : alnums (toLowerCase title) = []).
    { unfold slugify in Hempty.
      rewrite <- (collapse_runs_alnums false), <- (trim_hyphens_alnums true).
      by rewrite Hempty. }
    apply Forall_forall. intros c Hc.
    destruct (is_alnum c) eqn:E; [|done].
    assert (c ∈ alnums (toLowerCase title)) as Hin
      by (by apply list_elem_of_filter).
    rewrite Ha in Hin. by apply not_elem_of_nil in Hin.
  - intros Hall. unfold slugify.
    by destruct (collapse_runs_no_alnum _ Hall) as [_ [-> | ->]].
Qed.

(** X9. A slug is its own slug: given that the case mapping leaves
    strings of [a-z0-9] and hyphens alone, deriving a slug from a derived
    slug gives the same slug. *)
Theorem slugify_idempotent :
  (∀ s, slug_chars s → toLowerCase s = s) →
  ∀ title : jsstring,
    slugify toLowerCase (slugify toLowerCase title) = slugify toLowerCase title.
Proof.
  intros Hfix title.
  destruct (slugify_is_slug title) as (Hc & Ha & He).
  unfold slugify at 1. rewrite (Hfix _ Hc).
  rewrite (proj1 (collapse_runs_slug _ Hc Ha)).
  by apply trim_hyphens_slug.
Qed.

End WithCaseMapping.

(** *** The slug as words joined by hyphens *)

Lemma trim_hyphens_inner_app x y :
  y ≠ [] → trim_hyphens false (x ++ y) = x ++ trim_hyphens false y.
Proof.
  intros Hy. induction y as [|c y _] using rev_ind; [done|].
  rewrite app_assoc, !trim_hyphens_inner_snoc.
  destruct (c =? hyphen)%N; [done|]. by rewrite app_assoc.
Qed.

Lemma split_words_nonempty s :
  ∀ cur, Forall (λ w, w ≠ []) (split_words cur s).
Proof.
  induction s as [|c rest IH]; intros cur; simpl.
  - destruct cur; repeat constructor. done.
  - destruct (is_alnum c); [apply IH|].
    destruct cur; [apply IH|]. constructor; [done|apply IH].
Qed.

Lemma join_hyphen_nil ws :
  Forall (λ w, w ≠ []) ws → join_hyphen ws = [] → ws = [].
Proof.
  intros Hne. destruct ws as [|w rest]; [done|]. simpl.
  apply Forall_cons in Hne as [Hw _].
  destruct rest; [done|]. intros H. by destruct w.
Qed.

Lemma collapse_runs_run_head s :
  head (collapse_runs true s) ≠ Some hyphen.
Proof. by apply collapse_runs_adjacent. Qed.

(** With a word [cur] already read, and with none. *)
Lemma collapse_runs_words s :
  trim_hyphens false (collapse_runs true s) = join_hyphen (split_words [] s)
  ∧ ∀ cur, cur ≠ [] → last cur ≠ Some hyphen →
      trim_hyphens false (cur ++ collapse_runs false s)
      = join_hyphen (split_words cur s).
Proof.
  induction s as [|c rest [IH1 IH2]]; simpl.
  - split; [done|]. intros cur Hne Hlast. rewrite app_nil_r.
    rewrite trim_hyphens_inner_keep by done. by destruct cur.
  - destruct (is_alnum c) eqn:E.
    + split.
      * apply (IH2 [c]); [done|]. simpl. intros [= ->]. discriminate.
      * intros cur Hne Hlast. rewrite cons_middle, app_assoc.
        apply IH2; [by destruct cur|]. rewrite last_snoc. intros [= ->].
        discriminate.
    + split; [apply IH1|]. intros cur Hne Hlast.
      destruct cur as [|c0 cur]; [done|].
      set (w := c0 :: cur) in *.
      change (join_hyphen (w :: split_words [] rest))
        with (match split_words [] rest with
              | [] => w
              | _ :: _ => w ++ hyphen :: join_hyphen (split_words [] rest)
              end).
      destruct (collapse_runs true rest) as [|d y] eqn:Ey.
      * simpl in IH1. symmetry in IH1.
        apply join_hyphen_nil in IH1; [|apply split_words_nonempty].
        rewrite IH1. apply trim_hyphens_inner_snoc.
      * rewrite (trim_hyphens_inner_app w (hyphen :: d :: y)) by done.
        change (hyphen :: d :: y) with ([hyphen] ++ d :: y).
        rewrite (trim_hyphens_inner_app [hyphen] (d :: y)) by done.
        rewrite IH1. simpl.
        destruct (split_words [] rest) as [|w' ws] eqn:Ew; [|done].
        exfalso. simpl in IH1.
        pose proof (collapse_runs_run_head rest) as Hh. rewrite Ey in Hh.
        simpl in Hh, IH1.
        destruct (N.eqb_spec d hyphen) as [->|Hd]; [done|].
        rewrite andb_false_l in IH1. done.
Qed.

Lemma trim_collapse_words s :
  trim_hyphens true (collapse_runs false s) = join_hyphen (split_words [] s).
Proof.
  destruct s as [|c rest]; [done|]. simpl.
  destruct (is_alnum c) eqn:E.
  - cbn [trim_hyphens orb]. rewrite andb_true_r.
    destruct (N.eqb_spec c hyphen) as [->|Hc]; [discriminate|].
    rewrite <- (proj2 (collapse_runs_words rest) [c]); [|done|].
    + simpl. destruct (N.eqb_spec c hyphen); [done|].
      by rewrite andb_false_l.
    + simpl. by intros [= ->].
  - cbn [trim_hyphens orb]. rewrite N.eqb_refl. simpl.
    apply collapse_runs_words.
Qed.

Lemma split_words_alnum s :
  ∀ cur, Forall (λ c, is_alnum c = true) cur →
         Forall (Forall (λ c, is_alnum c = true)) (split_words cur s).
Proof.
  induction s as [|c rest IH]; intros cur Hcur; simpl.
  - destruct cur; repeat constructor; by inversion Hcur.
  - destruct (is_alnum c) eqn:E.
    + apply IH. apply Forall_app. split; [done|]. by repeat constructor.
    + destruct cur; [by apply IH|]. constructor; [done|by apply IH].
Qed.

(** X10. The two replacements amount to splitting and joining: the slug
    is the words of the lowercased title (its maximal runs of [a-z0-9],
    each non-empty) joined by single hyphens. Titles with the same words
    get the same slug. *)
Theorem slugify_words :
  ∀ (toLowerCase : jsstring → jsstring) (title : jsstring),
    slugify toLowerCase title
    = join_hyphen (split_words [] (toLowerCase title))
    ∧ Forall (λ w, w ≠ [] ∧ Forall (λ c, is_alnum c = true) w)
        (split_words [] (toLowerCase title)).
Proof.
  intros toLowerCase title. split; [apply trim_collapse_words|].
  pose proof (split_words_nonempty (toLowerCase title) []) as H1.
  pose proof (split_words_alnum (toLowerCase title) [] (Forall_nil_2 _)) as H2.
  rewrite Forall_forall in H1, H2 |- *. intros w Hw. split; auto.
Qed.

Example split_words_sample :
  split_words [] [45; 104; 105; 44; 32; 121; 111; 117; 33]%N
  = [[104; 105]; [121; 111; 117]]%N.
Proof. reflexivity. Qed.

Lemma toLowerCase_latin_slug s : slug_chars s → toLowerCase_latin s = s.
Proof.
  unfold toLowerCase_latin, slug_chars.
  induction 1 as [|c s Hc _ IH]; [done|]. rewrite fmap_cons, IH. f_equal.
  destruct Hc as [Hc%is_alnum_spec | ->]; [|done].
  destruct (N.leb_spec 65 c), (N.leb_spec c 90); simpl; try done; lia.
Qed.

Lemma slugify_empty_iff_witness :
  slugify toLowerCase_latin [33; 63]%N = [].
Proof.
  apply (proj2 (slugify_empty_iff toLowerCase_latin [33; 63]%N)).
  repeat constructor.
Defined.

Lemma slugify_idempotent_witness :
  slugify toLowerCase_latin (slugify toLowerCase_latin [65; 32; 98]%N)
  = slugify toLowerCase_latin [65; 32; 98]%N.
Proof.
  apply (slugify_idempotent toLowerCase_latin toLowerCase_latin_slug).
Defined.

End SlugFacts.

(** ** More on the slug hook *)

Module HookFacts.
Import Products ProductsFacts Slugs.

Section WithCaseMapping.
Variable toLowerCase : jsstring → jsstring.

(** X11. When the hook hands a document back, it is the document it got
    in every field but [slug], and in [slug] too when the caller gave
    one. *)
Theorem beforeValidate_only_slug :
  ∀ (operation : string) (d : document) (out : option document),
    beforeValidate toLowerCase operation (Some d) = Normal out →
    ∃ d', out = Some d'
          ∧ (∀ k, k ≠ "slug" → d' !! k = d !! k)
          ∧ (truthy (d !! "slug") = true → d' !! "slug" = d !! "slug").
Proof.
  intros operation d out. unfold beforeValidate.
  destruct (bool_decide (operation = "create")
            || bool_decide (operation = "update")); [|intros [= <-]; eauto].
  destruct (truthy (d !! "title") && negb (truthy (d !! "slug"))) eqn:E;
    [|intros [= <-]; eauto].
  destruct (d !! "title") as [[| | |title|]|]; try done.
  intros [= <-]. eexists. split; [done|]. split.
  - intros k Hk. by rewrite lookup_insert_ne.
  - intros Hs. rewrite Hs in E. by rewrite andb_false_r in E.
Qed.

(** X12. The hook throws in one case only: on create or update, with a
    truthy title that is not a string and no slug given. A text title
    never makes it throw. *)
Theorem beforeValidate_throws_iff :
  ∀ (operation : string) (data : option document),
    beforeValidate toLowerCase operation data = TypeError
    ↔ (operation = "create" ∨ operation = "update")
      ∧ ∃ d v, data = Some d ∧ d !! "title" = Some v
               ∧ truthy (Some v) = true ∧ ¬ is_text v
               ∧ truthy (d !! "slug") = false.
Proof.
  intros operation data. split.
  - unfold beforeValidate. intros H.
    destruct (bool_decide (operation = "create")
              || bool_decide (operation = "update")) eqn:Hop; [|done].
    apply orb_true_iff in Hop. rewrite !bool_decide_eq_true in Hop.
    destruct data as [d|]; [|done].
    destruct (truthy (d !! "title") && negb (truthy (d !! "slug"))) eqn:E;
      [|done].
    apply andb_true_iff in E as [Hv Hs%negb_true_iff].
    destruct (d !! "title") as [v|] eqn:Ht; [|done].
    split; [done|]. exists d, v. split_and!; try done.
    intros [s ->]. done.
  - intros (Hop & d & v & -> & Ht & Hv & Hn & Hs). unfold beforeValidate.
    assert (bool_decide (operation = "create")
            || bool_decide (operation = "update") = true) as ->.
    { apply orb_true_iff. by rewrite !bool_decide_eq_true. }
    rewrite Ht, Hv, Hs. simpl.
    destruct v as [| | |s|]; try done. destruct Hn. by exists s.
Qed.

End WithCaseMapping.

Lemma beforeValidate_only_slug_witness :
  ∃ d', Some sample_slugged = Some d'
        ∧ (∀ k, k ≠ "slug" → d' !! k = sample_titled !! k)
        ∧ (truthy (sample_titled !! "slug") = true →
           d' !! "slug" = sample_titled !! "slug").
Proof.
  apply (beforeValidate_only_slug toLowerCase_latin "create" sample_titled).
  vm_compute. reflexivity.
Defined.

Lemma beforeValidate_throws_iff_witness :
  beforeValidate toLowerCase_latin "create" (Some (<["title" := VNum 5]> ∅))
  = TypeError.
Proof.
  apply (proj2 (beforeValidate_throws_iff toLowerCase_latin "create" _)).
  split; [left; reflexivity|].
  exists (<["title" := VNum 5]> ∅), (VNum 5).
  split_and!; try reflexivity. intros [s Hs]. discriminate Hs.
Defined.

End HookFacts.

(** ** The override and the schema *)

Module OverrideFacts.
Import Products Migration Override.

Section WithRest.
Context {Rest : Type}.
Variable toLowerCase : jsstring → jsstring.

(** X13. [productsOverride] keeps what the collection it is given
    configures, also when that collection has no [admin] or no [hooks]:
    the properties it does not name, every admin option but [useAsTitle]
    (which becomes ['title']), every hook list but [beforeValidate], whose
    hooks stay in order before the slug hook (which stands alone when
    none were given), and every field, after the five fields [title], [slug], [sku], [copy] and [gallery]. *)
Theorem productsOverride_keeps_defaults :
  ∀ defaultCollection : CollectionConfig Rest,
    let result := productsOverride Rest toLowerCase defaultCollection in
    rest Rest result = rest Rest defaultCollection
    ∧ (∃ a, admin Rest result = Some a
            ∧ a !! "useAsTitle" = Some (CStr "title")
            ∧ ∀ k, k ≠ "useAsTitle" →
                   a !! k = default ∅ (admin Rest defaultCollection) !! k)
    ∧ (∃ h given,
         hooks Rest result = Some h
         ∧ h !! "beforeValidate" = Some (given ++ [beforeValidate toLowerCase])
         ∧ (∀ h0 l, hooks Rest defaultCollection = Some h0 →
                    h0 !! "beforeValidate" = Some l → given = l)
         ∧ (hooks Rest defaultCollection ≫= (.!! "beforeValidate") = None →
            given = [])
         ∧ ∀ k, k ≠ "beforeValidate" →
                h !! k = default ∅ (hooks Rest defaultCollection) !! k)
    ∧ field_name <$> take 5 (fields Rest result)
      = Some <$> ["title"; "slug"; "sku"; "copy"; "gallery"]
    ∧ drop 5 (fields Rest result) = fields Rest defaultCollection.
Proof.
  intros defaultCollection result. subst result. unfold productsOverride.
  cbn [rest admin hooks fields]. split_and!.
  - done.
  - eexists. split_and!; [done|apply lookup_insert_eq|].
    intros k Hk. by apply lookup_insert_ne.
  - eexists _, _. split_and!; [done|apply lookup_insert_eq| | |].
    + intros h0 l -> Hl. simpl. by rewrite Hl.
    + intros H.
      change (default [] (hooks Rest defaultCollection ≫= (.!! "beforeValidate"))
              = []).
      by rewrite H.
    + intros k Hk. by apply lookup_insert_ne.
  - done.
  - done.
Qed.

End WithRest.

(** X14. The migration gives every field the override adds its place in
    the schema, and [down] takes it away again: a column of the field's
    name on [products] for a field that is no array, a table
    [products_<name>] for an array field, and a unique index
    [products_<name>_idx] on the column of a unique field. *)
Theorem fields_have_their_schema :
  ∀ (f : config) (name : string),
    f ∈ own_fields → field_name f = Some name →
    (is_array_field f = false →
       AddColumn "products" (text_column name) ∈ up
       ∧ DropColumn "products" name ∈ down)
    ∧ (is_array_field f = true →
       (∃ cols fks, CreateTable ("products_" +:+ name) cols fks ∈ up)
       ∧ DropTable ("products_" +:+ name) ∈ down)
    ∧ (is_unique_field f = true →
       CreateIndex true ("products_" +:+ name +:+ "_idx") "products" [name] ∈ up
       ∧ DropIndex ("products_" +:+ name +:+ "_idx") ∈ down).
Proof.
  intros f name Hf Hname. unfold own_fields in Hf.
  repeat (apply elem_of_cons in Hf as [->|Hf]);
    [..|by apply elem_of_nil in Hf];
    injection Hname as <-; split_and!; try discriminate; intros _;
    (split; [|unfold down; set_solver]); unfold up; set_solver.
Qed.

Lemma fields_have_their_schema_witness :
  CreateIndex true "products_slug_idx" "products" ["slug"] ∈ up
  ∧ DropIndex "products_slug_idx" ∈ down.
Proof.
  apply (fields_have_their_schema
           (CObj [("name", CStr "slug"); ("type", CStr "text");
                  ("required", CBool true); ("unique", CBool true);
                  ("admin", CObj [("position", CStr "sidebar")])])
           "slug").
  - unfold own_fields. apply list_elem_of_further, list_elem_of_here.
  - reflexivity.
  - reflexivity.
Defined.

End OverrideFacts.

(** ** More on the migration *)

Module MigrationMore.
Import Migration MigrationFacts MigrationFlow.

Lemma exec_DropTable_Some name s s' :
  exec (DropTable name) s = Some s' →
  ∃ t, tables s !! nocase name = Some t
       ∧ s' = mkSchema (delete (nocase name) (tables s))
                (filter (index_off (nocase name)) (indexes s))
                (views s)
                (filter (trigger_off (nocase name)) (triggers s)).
Proof.
  simpl. destruct (tables s !! nocase name) as [t|]; [|done].
  intros [= <-]. by exists t.
Qed.

Lemma exec_DropIndex_Some name s s' :
  exec (DropIndex name) s = Some s' →
  ∃ ix, indexes s !! nocase name = Some ix
        ∧ s' = mkSchema (tables s) (delete (nocase name) (indexes s))
                 (views s) (triggers s).
Proof.
  simpl. destruct (indexes s !! nocase name) as [ix|]; [|done].
  intros [= <-]. by exists ix.
Qed.

Lemma exec_DropColumn_Some tbl col s s' :
  exec (DropColumn tbl col) s = Some s' →
  ∃ t, tables s !! nocase tbl = Some t
       ∧ nocase col ∈ col_names (tbl_columns t)
       ∧ s' = mkSchema
                (<[nocase tbl := mkTable (without_column col (tbl_columns t))
                                   (tbl_fkeys t)]> (tables s))
                (indexes s) (views s) (triggers s).
Proof.
  simpl. destruct (tables s !! nocase tbl) as [t|]; [|done].
  case_decide as H; [|done]. intros [= <-]. exists t.
  by destruct H as (? & _).
Qed.

Lemma col_names_without_elem col c cols :
  c ∈ col_names (without_column col cols) →
  c ∈ col_names cols ∧ c ≠ nocase col.
Proof.
  unfold col_names, without_column.
  intros (x & -> & [Hx Hin]%list_elem_of_filter)%list_elem_of_fmap.
  split; [|done]. by apply (list_elem_of_fmap_2 (λ c, nocase (col_name c))).
Qed.

Ltac norm_lookup_drop :=
  repeat match goal with
    | H : context [ <[?k := _]> _ !! ?k ] |- _ => rewrite lookup_insert_eq in H
    | H : context [ <[?k := _]> _ !! ?k' ] |- _ =>
        rewrite lookup_insert_ne in H by done
    | H : context [ delete ?k _ !! ?k' ] |- _ =>
        rewrite lookup_delete_ne in H by done
    end.

Ltac step_down H :=
  let s1 := fresh "s" in
  let E := fresh "E" in
  apply bind_Some in H as (s1 & E & H);
  first
    [ apply exec_DropTable_Some in E as (? & ? & ->)
    | apply exec_DropIndex_Some in E as (? & ? & ->)
    | apply exec_DropColumn_Some in E as (? & ? & ? & ->) ];
  cbv beta in H; cbn [tables indexes views triggers] in *;
  nocase_names; norm_lookup_drop; simplify_eq;
  cbn [tbl_columns tbl_fkeys] in *.

Lemma without_column_four a b c d cols :
  without_column d (without_column c (without_column b (without_column a cols)))
  = filter (λ x, nocase (col_name x) ∉ [nocase a; nocase b; nocase c; nocase d])
      cols.
Proof.
  unfold without_column. rewrite !list_filter_filter.
  apply list_filter_iff. intros x.
  rewrite !not_elem_of_cons. pose proof (not_elem_of_nil (nocase (col_name x))).
  tauto.
Qed.

Lemma down_Some s s' :
  run down s = Some s' → ∃ p pv, down_ready s p pv ∧ s' = after_down s p pv.
Proof.
  unfold down. intros H. cbn [run] in H.
  do 12 step_down H.
  repeat match goal with
    | H : filter _ _ !! _ = Some _ |- _ =>
        apply map_lookup_filter_Some in H as [H ?]
    | H : _ ∈ col_names (without_column _ _) |- _ =>
        apply col_names_without_elem in H as [H _]
    end.
  match goal with
  | Hp : tables s !! "products" = Some ?p,
    Hpv : tables s !! "_products_v" = Some ?pv |- _ => exists p, pv
  end.
  split.
  - unfold down_ready, products_added, version_added.
    split_and!; eauto; repeat first [done | constructor].
  - unfold after_down, without_columns, products_added, version_added.
    rewrite !insert_insert_eq, !without_column_four. reflexivity.
Qed.

(** Columns written in lower case, as the scripts write them, are gone
    from the table without them. *)
Lemma without_columns_absent cols t :
  Forall (λ c, nocase (col_name c) = col_name c) cols →
  Forall (λ c, col_name c ∉ col_names (tbl_columns (without_columns cols t)))
    cols.
Proof.
  rewrite !Forall_forall. intros Hlow c Hc. unfold without_columns, col_names.
  cbn [tbl_columns].
  intros (x & Hx & [Hnot _]%list_elem_of_filter)%list_elem_of_fmap.
  apply Hnot. rewrite <- Hx, <- (Hlow c Hc).
  by apply (list_elem_of_fmap_2 (λ c, nocase (col_name c))).
Qed.

(** X18. [down] goes through only on a schema that has what [up] makes:
    the two gallery tables, the two slug indexes, and the four columns on
    each of [products] and [_products_v]. On a database the migration was
    never applied to it fails. *)
Theorem down_needs_what_up_made :
  ∀ s s' : schema,
    run down s = Some s' →
    Forall (λ n, is_Some (tables s !! n)) dropped_tables
    ∧ Forall (λ n, is_Some (indexes s !! n)) dropped_indexes
    ∧ (∃ p, tables s !! "products" = Some p
            ∧ Forall (λ c, col_name c ∈ col_names (tbl_columns p))
                products_added)
    ∧ (∃ pv, tables s !! "_products_v" = Some pv
             ∧ Forall (λ c, col_name c ∈ col_names (tbl_columns pv))
                 version_added).
Proof.
  intros s s' (p & pv & Hready & _)%down_Some.
  destruct Hready as (Hp & Hpv & Hg & Hvg & (ix & Hix & _) & (ix' & Hix' & _)
                      & Hpc & Hpvc).
  split_and!; [by repeat constructor|by repeat constructor; eexists| |]; eauto.
Qed.

(** X19. After [down], whatever schema it ran on, nothing of the
    migration is left: neither gallery table, neither slug index, no index
    on a gallery table, and none of the added columns on [products] or
    [_products_v]. *)
Theorem down_leaves_nothing :
  ∀ s s' : schema,
    run down s = Some s' →
    Forall (λ n, tables s' !! n = None) dropped_tables
    ∧ Forall (λ n, indexes s' !! n = None) dropped_indexes
    ∧ (∀ n ix, indexes s' !! n = Some ix → idx_table ix ∉ dropped_tables)
    ∧ (∃ p', tables s' !! "products" = Some p'
             ∧ Forall (λ c, col_name c ∉ col_names (tbl_columns p'))
                 products_added)
    ∧ (∃ pv', tables s' !! "_products_v" = Some pv'
              ∧ Forall (λ c, col_name c ∉ col_names (tbl_columns pv'))
                  version_added).
Proof.
  intros s s' (p & pv & Hready & ->)%down_Some.
  unfold after_down, dropped_tables, dropped_indexes. cbn [tables indexes].
  split_and!.
  - repeat constructor.
    + rewrite !lookup_insert_ne, lookup_delete_ne by done. apply lookup_delete_eq.
    + rewrite !lookup_insert_ne by done. apply lookup_delete_eq.
  - repeat constructor.
    + rewrite lookup_delete_ne by done. apply lookup_delete_eq.
    + apply lookup_delete_eq.
  - intros n ix Hn.
    apply lookup_delete_Some in Hn as [_ Hn].
    apply lookup_delete_Some in Hn as [_ Hn].
    apply map_lookup_filter_Some in Hn as [Hn Hoff1].
    apply map_lookup_filter_Some in Hn as [Hn Hoff2].
    unfold index_off in *. simpl in *.
    rewrite !not_elem_of_cons. split_and!; [done|done|apply not_elem_of_nil].
  - eexists. rewrite lookup_insert_ne, lookup_insert_eq by done.
    split; [done|]. apply without_columns_absent. by repeat constructor.
  - eexists. rewrite lookup_insert_eq.
    split; [done|]. apply without_columns_absent. by repeat constructor.
Qed.

(** X20. [down] touches nothing else: every other table is as before,
    [products] and [_products_v] lose only the columns of the migration
    (the others keep their order, the foreign keys stay), no index
    appears, and every index that is neither a slug index nor on a gallery
    table stays. *)
Theorem down_touches_nothing_else :
  ∀ s s' : schema,
    run down s = Some s' →
    (∀ n, n ∉ dropped_tables → n ≠ "products" → n ≠ "_products_v" →
          tables s' !! n = tables s !! n)
    ∧ (∀ n ix, indexes s' !! n = Some ix → indexes s !! n = Some ix)
    ∧ (∀ n ix, indexes s !! n = Some ix → n ∉ dropped_indexes →
               idx_table ix ∉ dropped_tables → indexes s' !! n = Some ix)
    ∧ (∀ p p', tables s !! "products" = Some p →
               tables s' !! "products" = Some p' →
               p' = without_columns products_added p)
    ∧ (∀ pv pv', tables s !! "_products_v" = Some pv →
                 tables s' !! "_products_v" = Some pv' →
                 pv' = without_columns version_added pv).
Proof.
  intros s s' (p & pv & Hready & ->)%down_Some.
  destruct Hready as (Hp & Hpv & _).
  unfold after_down, dropped_tables, dropped_indexes. cbn [tables indexes].
  split_and!.
  - intros n Hn Hn1 Hn2. rewrite !not_elem_of_cons in Hn.
    destruct Hn as (? & ? & _).
    by rewrite !lookup_insert_ne, !lookup_delete_ne by done.
  - intros n ix Hn.
    apply lookup_delete_Some in Hn as [_ Hn].
    apply lookup_delete_Some in Hn as [_ Hn].
    apply map_lookup_filter_Some in Hn as [Hn _].
    by apply map_lookup_filter_Some in Hn as [Hn _].
  - intros n ix Hn Hname Htbl. rewrite !not_elem_of_cons in Hname, Htbl.
    destruct Hname as (? & ? & _), Htbl as (? & ? & _).
    rewrite !lookup_delete_ne by done.
    apply map_lookup_filter_Some. split; [|done].
    apply map_lookup_filter_Some. by split.
  - intros p0 p' Hp0. rewrite lookup_insert_ne, lookup_insert_eq by done.
    intros [= <-]. congruence.
  - intros pv0 pv' Hpv0. rewrite lookup_insert_eq. intros [= <-]. congruence.
Qed.

(** X21. [down] cannot be run twice in a row: after it went through, the
    gallery table is gone and the first statement fails. *)
Theorem down_twice_fails :
  ∀ s s' : schema, run down s = Some s' → run down s' = None.
Proof.
  intros s s' (p & pv & _ & ->)%down_Some.
  unfold down. cbn [run exec after_down tables].
  rewrite !lookup_insert_ne, lookup_delete_ne by done.
  by rewrite lookup_delete_eq.
Qed.

(** *** What [up] leaves in place *)

(** X15. [up] goes through only on a schema that has the tables
    [products] and [_products_v], has none of the ten names it creates
    taken by a table, an index or a view, and has none of the eight
    columns it adds, in whatever spelling; and it then leaves the schema
    [after_up] describes. *)
Theorem up_needs_and_leaves :
  ∀ s s' : schema,
    run up s = Some s' → ∃ p pv, up_ready s p pv ∧ s' = after_up s p pv.
Proof. intros s s'. apply up_Some. Qed.

(** X16. [up] cannot be run twice in a row: after it went through, the
    gallery table exists and the first statement fails. *)
Theorem up_twice_fails :
  ∀ s s' : schema, run up s = Some s' → run up s' = None.
Proof.
  intros s s' (p & pv & _ & ->)%up_Some.
  unfold up. cbn [run exec].
  rewrite decide_False; [done|].
  intros [[Hfree _] _]. unfold after_up in Hfree. cbn [tables] in Hfree.
  rewrite !lookup_insert_ne in Hfree by done.
  by rewrite lookup_insert_eq in Hfree.
Qed.

(** X17. [up] only adds: every table that was there is still there with
    its columns first and in order and with its foreign keys, unchanged
    unless it is [products] or [_products_v], and every index that was
    there is still there. *)
Theorem up_only_adds :
  ∀ s s' : schema,
    run up s = Some s' →
    (∀ n t, tables s !! n = Some t →
       ∃ t', tables s' !! n = Some t'
             ∧ tbl_columns t `prefix_of` tbl_columns t'
             ∧ tbl_fkeys t' = tbl_fkeys t
             ∧ (n ≠ "products" → n ≠ "_products_v" → t' = t))
    ∧ (∀ n ix, indexes s !! n = Some ix → indexes s' !! n = Some ix).
Proof.
  intros s s' (p & pv & Hready & ->)%up_Some.
  destruct Hready as (Hp & Hpv & Hfree & _).
  unfold created_names, name_free in Hfree.
  repeat match goal with
    | H : Forall _ (_ :: _) |- _ => apply Forall_cons in H as [? H]
    | H : Forall _ [] |- _ => clear H
    | H : _ ∧ _ |- _ => destruct H
    end.
  unfold after_up. cbn [tables indexes]. split.
  - intros n t Hn.
    destruct (decide (n = "_products_v")) as [->|Hn1].
    { rewrite lookup_insert_eq. eexists. split; [done|].
      replace t with pv by congruence.
      split_and!; [by apply prefix_app_r|done|done]. }
    destruct (decide (n = "products")) as [->|Hn2].
    { rewrite lookup_insert_ne, lookup_insert_eq by done.
      eexists. split; [done|]. replace t with p by congruence.
      split_and!; [by apply prefix_app_r|done|done]. }
    exists t. split_and!; try done.
    rewrite !lookup_insert_ne; [done|congruence..].
  - intros n ix Hn. rewrite !lookup_insert_ne; [done|congruence..].
Qed.

(** Both scripts leave a schema that SQLite can hold. *)
Lemma scripts_keep_schema_ok :
  ∀ s s' : schema,
    schema_ok s →
    (run up s = Some s' → schema_ok s') ∧ (run down s = Some s' → schema_ok s').
Proof. intros s s' Hok. split; by apply run_schema_ok. Qed.

(** *** The scripts on the sample schema *)

Lemma sample_up :
  run up sample_schema
  = Some (after_up sample_schema sample_products sample_products_v).
Proof. vm_compute. reflexivity. Qed.

Lemma sample_down :
  run down (after_up sample_schema sample_products sample_products_v)
  = Some sample_schema.
Proof. vm_compute. reflexivity. Qed.

Lemma up_needs_and_leaves_witness :
  ∃ p pv, up_ready sample_schema p pv
          ∧ after_up sample_schema sample_products sample_products_v
            = after_up sample_schema p pv.
Proof.
  apply (up_needs_and_leaves sample_schema _). vm_compute. reflexivity.
Defined.

Lemma up_twice_fails_witness :
  run up (after_up sample_schema sample_products sample_products_v) = None.
Proof.
  apply (up_twice_fails sample_schema). vm_compute. reflexivity.
Defined.

Lemma up_only_adds_witness :
  indexes (after_up sample_schema sample_products sample_products_v)
    !! "_products_v_parent_idx"
  = Some (mkIndex "_products_v" ["parent_id"] false).
Proof.
  apply (proj2 (up_only_adds sample_schema _ sample_up)). reflexivity.
Defined.

Lemma down_needs_what_up_made_witness :
  Forall
    (λ n, is_Some
            (tables (after_up sample_schema sample_products sample_products_v)
               !! n))
    dropped_tables.
Proof.
  apply (down_needs_what_up_made _ sample_schema). vm_compute. reflexivity.
Defined.

Lemma down_leaves_nothing_witness :
  Forall (λ n, tables sample_schema !! n = None) dropped_tables.
Proof.
  apply (down_leaves_nothing
           (after_up sample_schema sample_products sample_products_v)).
  vm_compute. reflexivity.
Defined.

Lemma down_touches_nothing_else_witness :
  tables sample_schema !! "media"
  = tables (after_up sample_schema sample_products sample_products_v)
      !! "media".
Proof.
  apply (down_touches_nothing_else
           (after_up sample_schema sample_products sample_products_v)
           sample_schema).
  - vm_compute. reflexivity.
  - apply (bool_decide_unpack _). vm_compute. exact I.
  - discriminate.
  - discriminate.
Defined.

Lemma down_twice_fails_witness : run down sample_schema = None.
Proof.
  apply (down_twice_fails
           (after_up sample_schema sample_products sample_products_v)).
  vm_compute. reflexivity.
Defined.

End MigrationMore.

(** ** The cart store *)

Module CartFacts.
Import CartStore.

(** *** Whole numbers as JS numbers *)

Lemma js_round_exact x : Z.abs x ≤ js_exact → js_round x = x.
Proof.
  unfold js_round, js_exact. intros Hx.
  destruct (Z.leb_spec (Z.log2 (Z.abs x) - 52) 0) as [|He]; [done|].
  assert (Z.abs x = 2 ^ 53) as Habs.
  { destruct (Z.lt_ge_cases (Z.abs x) (2 ^ 53)) as [Hlt|]; [|lia].
    destruct (Z.eq_dec (Z.abs x) 0) as [E|E]; [rewrite E in He; simpl in He; lia|].
    apply Z.log2_lt_pow2 in Hlt; lia. }
  destruct (Z.abs_eq_or_opp x) as [E|E]; rewrite Habs in E.
  - by subst x.
  - assert (x = - 2 ^ 53) as -> by lia. done.
Qed.

Lemma js_round_pos x : 0 < x → 0 < js_round x.
Proof.
  intros Hx. unfold js_round. rewrite Z.abs_eq by lia.
  destruct (Z.leb_spec (Z.log2 x - 52) 0) as [|He]; [done|].
  rewrite Z.sgn_pos, Z.mul_1_l, Z.shiftl_mul_pow2 by lia.
  assert (0 < Z.shiftr x (Z.log2 x - 52)) as Hkept.
  { rewrite Z.shiftr_div_pow2 by lia. apply Z.div_str_pos.
    split; [apply Z.pow_pos_nonneg; lia|].
    etrans; [|apply Z.log2_spec; lia]. apply Z.pow_le_mono_r; lia. }
  apply Z.mul_pos_pos; [|apply Z.pow_pos_nonneg; lia].
  destruct (_ || _); lia.
Qed.

Lemma js_round_nonpos x : x ≤ 0 → js_round x ≤ 0.
Proof.
  intros Hx. unfold js_round.
  destruct (Z.leb_spec (Z.log2 (Z.abs x) - 52) 0) as [|He]; [done|].
  apply Z.mul_nonpos_nonneg; [by apply Z.sgn_nonpos|].
  apply Z.shiftl_nonneg.
  assert (0 ≤ Z.shiftr (Z.abs x) (Z.log2 (Z.abs x) - 52))
    by (apply Z.shiftr_nonneg; lia).
  destruct (_ || _); lia.
Qed.

Lemma js_add_exact a b : Z.abs (a + b) ≤ js_exact → js_add a b = a + b.
Proof. apply js_round_exact. Qed.

(** At 2^53 the next whole number is lost: adding one changes nothing. *)
Example js_add_rounds : js_add (2 ^ 53) 1 = 2 ^ 53.
Proof. reflexivity. Qed.

(** *** Counting *)

Lemma weight_nonneg l : 0 ≤ weight l.
Proof. induction l as [|it l IH]; simpl; lia. Qed.

Lemma foldl_quantity acc l :
  Z.abs acc + weight l ≤ js_exact →
  foldl (λ sum it, js_add sum (quantity it)) acc l = acc + total l.
Proof.
  revert acc. induction l as [|it l IH]; intros acc Hw; simpl in *; [lia|].
  pose proof (weight_nonneg l).
  rewrite js_add_exact by lia. rewrite IH by lia. lia.
Qed.

(** The count is taken over the lines shown. *)
Lemma itemCount_lines c :
  itemCount c = foldl (λ sum it, js_add sum (quantity it)) 0 (lines c).
Proof. by destruct c. Qed.

Lemma itemCount_total c :
  weight (lines c) ≤ js_exact → itemCount c = total (lines c).
Proof.
  destruct c as [c|]; [|done]. simpl. intros Hw.
  by rewrite foldl_quantity by (simpl; lia).
Qed.

Lemma total_app l1 l2 : total (l1 ++ l2) = total l1 + total l2.
Proof. induction l1 as [|it l1 IH]; simpl; lia. Qed.

Lemma weight_app l1 l2 : weight (l1 ++ l2) = weight l1 + weight l2.
Proof. induction l1 as [|it l1 IH]; simpl; lia. Qed.

(** A quantity changed by [n], with room for it below 2^53. *)
Lemma alter_bump_exact n i l it :
  l !! i = Some it → weight l + Z.abs n ≤ js_exact →
  total (alter (bump n) i l) = total l + n
  ∧ weight (alter (bump n) i l) ≤ weight l + Z.abs n.
Proof.
  revert i. induction l as [|x l IH]; intros [|i] Hi Hw; simplify_eq/=.
  - pose proof (weight_nonneg l). rewrite js_add_exact by lia. lia.
  - pose proof (Z.abs_nonneg (quantity x)).
    destruct (IH i Hi) as [-> ?]; lia.
Qed.

Lemma weight_lookup l i x :
  l !! i = Some x → Z.abs (quantity x) ≤ weight l.
Proof.
  revert i. induction l as [|y l IH]; intros [|i] Hi; simplify_eq/=.
  - pose proof (weight_nonneg l). lia.
  - pose proof (IH i Hi). lia.
Qed.

Lemma weight_filter (P : CartItem → Prop) `{!∀ x, Decision (P x)} l :
  weight (filter P l) ≤ weight l.
Proof.
  induction l as [|x l IH]; [done|]. rewrite filter_cons.
  pose proof (Z.abs_nonneg (quantity x)). destruct (decide (P x)); simpl; lia.
Qed.

Lemma lookup_lines_default (st : Store) :
  items (default (mkCart None [] None) (cart st)) = lines (cart st).
Proof. by destruct (cart st). Qed.

(** X22. While the sizes of the quantities in the cart and of the
    quantity added stay within 2^53 together, [addItem] raises the count
    the cart toggle shows by exactly the quantity added, whether there was
    no cart, the product was new, or the product already had a line. *)
Theorem addItem_count :
  ∀ (uuid productId : string) (n : Z) (variantId : option string) (st : Store),
    weight (lines (cart st)) + Z.abs n ≤ js_exact →
    itemCount (cart (addItem uuid productId n variantId st))
    = itemCount (cart st) + n.
Proof.
  intros uuid productId n variantId st Hw.
  rewrite (itemCount_total (cart st)) by lia.
  unfold addItem. cbn [cart]. unfold itemCount. cbn [with_items items].
  rewrite lookup_lines_default.
  destruct (list_find _ _) as [[i it]|] eqn:E.
  - apply list_find_Some in E as (Hi & _).
    destruct (alter_bump_exact n i _ it Hi Hw) as [Ht Hw'].
    rewrite foldl_quantity by (simpl; lia). lia.
  - rewrite foldl_quantity by (rewrite weight_app; simpl; lia).
    rewrite total_app. simpl. lia.
Qed.

Lemma line_key_bump n it : line_key (bump n it) = line_key it.
Proof. done. Qed.

Lemma fmap_alter_same {A B} (f : A → B) (g : A → A) i (l : list A) :
  (∀ x, f (g x) = f x) → f <$> alter g i l = f <$> l.
Proof.
  intros H. revert i.
  induction l as [|x l IH]; intros [|i]; f_equal/=; auto.
Qed.

(** X23. Adding a product that already has a line adds no line and
    changes no line's id, product or variant: the new id and the variant
    passed are not used, only the quantity of the first line of that
    product grows. *)
Theorem addItem_known_product :
  ∀ (uuid productId : string) (n : Z) (variantId : option string) (st : Store)
    (it : CartItem),
    it ∈ lines (cart st) → productIdOf it = productId →
    line_key <$> lines (cart (addItem uuid productId n variantId st))
    = line_key <$> lines (cart st).
Proof.
  intros uuid productId n variantId st it Hin Hid.
  unfold addItem. cbn [cart lines with_items items].
  rewrite lookup_lines_default.
  destruct (list_find _ _) as [[i x]|] eqn:E.
  - by apply fmap_alter_same.
  - exfalso. eapply list_find_None in E. rewrite Forall_forall in E.
    by apply (E it).
Qed.

(** [removeItem] leaves the lines with another id, in order, and only
    them; on a store without a cart it does nothing; doing it twice is
    doing it once. *)
Lemma removeItem_removes :
  ∀ (itemId : string) (st : Store),
    (cart st = None → removeItem itemId st = st)
    ∧ lines (cart (removeItem itemId st))
      = filter (λ it, item_id it ≠ itemId) (lines (cart st))
    ∧ (∀ it, it ∈ lines (cart (removeItem itemId st)) → item_id it ≠ itemId)
    ∧ removeItem itemId (removeItem itemId st) = removeItem itemId st.
Proof.
  intros itemId st. unfold removeItem.
  destruct (cart st) as [c|] eqn:Ec; simpl.
  - split_and!; [done|done| |].
    + by intros it [? _]%list_elem_of_filter.
    + unfold publish, with_items. simpl.
      by rewrite list_filter_filter_l.
  - rewrite Ec. simpl. split_and!; try done. intros it Hin.
    by apply not_elem_of_nil in Hin.
Qed.

Lemma list_find_alter_same {A} (P : A → Prop) `{!∀ x, Decision (P x)}
    (g : A → A) i (l : list A) :
  (∀ x, P (g x) ↔ P x) →
  list_find P (alter g i l)
  = (λ jx, (jx.1, if decide (jx.1 = i) then g jx.2 else jx.2)) <$> list_find P l.
Proof.
  intros Hiff. revert i. induction l as [|x l IH]; intros i; [done|].
  destruct i as [|i]; cbn [alter list_alter list_find].
  - destruct (decide (P (g x))) as [Hg|Hg], (decide (P x)) as [Hx|Hx].
    + done.
    + destruct Hx. by apply Hiff.
    + destruct Hg. by apply Hiff.
    + simpl. by destruct (list_find P l) as [[j y]|].
  - destruct (decide (P x)); [done|]. simpl.
    change (list_alter g i l) with (alter g i l). rewrite IH.
    destruct (list_find P l) as [[j y]|]; [|done]. simpl.
    repeat case_decide; try done; lia.
Qed.

Lemma bump_back it :
  0 < quantity it → quantity it < js_exact → bump (-1) (bump 1 it) = it.
Proof.
  unfold js_exact. intros Hpos Hlt. destruct it as [id p q v].
  unfold bump. simpl in *. f_equal.
  rewrite (js_add_exact q 1) by (unfold js_exact; lia).
  rewrite js_add_exact by (unfold js_exact; lia). lia.
Qed.

(** X24. A click on plus followed by a click on minus gives the cart
    back as it was, when the first line with the id has a positive quantity
    below 2^53. *)
Theorem increment_then_decrement :
  ∀ (itemId : string) (st : Store) (i : nat) (it : CartItem),
    list_find (λ it, item_id it = itemId) (lines (cart st)) = Some (i, it) →
    0 < quantity it → quantity it < js_exact →
    cart (decrementItem itemId (incrementItem itemId st)) = cart st.
Proof.
  intros itemId st i it Hfind Hpos Hlt.
  destruct (cart st) as [c|] eqn:Ec; [|done]. simpl in Hfind.
  unfold incrementItem. rewrite Ec, Hfind.
  unfold decrementItem, publish. cbn [cart with_items items].
  rewrite (list_find_alter_same _ (bump 1)) by done.
  rewrite Hfind. cbn [fmap option_fmap option_map fst snd].
  rewrite decide_True by done.
  pose proof (bump_back it Hpos Hlt) as Hback.
  assert (js_add (quantity (bump 1 it)) (-1) = quantity it) as ->
    by (by rewrite <- Hback at 2).
  destruct (Z.leb_spec (quantity it) 0) as [|_]; [lia|].
  cbn [cart]. unfold with_items. cbn [cart_id totals].
  rewrite list_alter_alter_eq.
  apply list_find_Some in Hfind as (Hi & _).
  rewrite (list_alter_ext _ id _ (items c) i); [|intros x Hx|done].
  - rewrite list_alter_id by done. by destruct c.
  - simpl. by replace x with it by congruence.
Qed.

Lemma filter_alter_out {A} (P : A → Prop) `{!∀ x, Decision (P x)}
    (g : A → A) i (l : list A) x :
  l !! i = Some x → ¬ P x → ¬ P (g x) →
  filter P (alter g i l) = filter P l.
Proof.
  revert i. induction l as [|y l IH]; intros [|i] Hi Hx Hg; simplify_eq/=.
  - by rewrite !filter_cons_False.
  - rewrite !filter_cons. by erewrite IH.
Qed.

(** X25. Decrementing a line whose quantity is 1 or less removes it: the
    cart is the one [removeItem] leaves. *)
Theorem decrement_to_nothing_removes :
  ∀ (itemId : string) (st : Store) (i : nat) (it : CartItem),
    list_find (λ it, item_id it = itemId) (lines (cart st)) = Some (i, it) →
    quantity it ≤ 1 →
    cart (decrementItem itemId st) = cart (removeItem itemId st).
Proof.
  intros itemId st i it Hfind Hq.
  destruct (cart st) as [c|] eqn:Ec; [|done]. simpl in Hfind.
  unfold decrementItem, removeItem. rewrite Ec, Hfind.
  pose proof (js_round_nonpos (quantity it + -1)) as Hlow.
  destruct (Z.leb_spec (js_add (quantity it) (-1)) 0) as [_|];
    [|unfold js_add in *; lia].
  cbn [cart publish with_items items cart_id totals].
  apply list_find_Some in Hfind as (Hi & Hid & _).
  rewrite (filter_alter_out _ _ _ _ it); [done|done|by intros []..].
Qed.

(** X26. With an id that no line has, [incrementItem] and
    [decrementItem] leave the whole store as it is (nothing is written to
    storage), and [removeItem] leaves every line. *)
Theorem unknown_id_changes_nothing :
  ∀ (itemId : string) (st : Store),
    (∀ it, it ∈ lines (cart st) → item_id it ≠ itemId) →
    incrementItem itemId st = st
    ∧ decrementItem itemId st = st
    ∧ lines (cart (removeItem itemId st)) = lines (cart st).
Proof.
  intros itemId st Hnone.
  unfold incrementItem, decrementItem, removeItem.
  destruct (cart st) as [c|] eqn:Ec; [|by rewrite ?Ec]. simpl in Hnone.
  assert (list_find (λ it, item_id it = itemId) (items c) = None) as ->.
  { apply list_find_None, Forall_forall. exact Hnone. }
  split_and!; [done|done|]. simpl.
  induction (items c) as [|x l IH]; [done|].
  rewrite filter_cons_True by (apply Hnone; left).
  f_equal. apply IH. intros it Hit. apply Hnone. by right.
Qed.

(** *** The storage entry follows the atom *)

Lemma in_step_publish c st : in_step (publish c st).
Proof. by left. Qed.

Lemma in_step_removeItem itemId st : in_step st → in_step (removeItem itemId st).
Proof.
  intros H. unfold removeItem. destruct (cart st); [apply in_step_publish|done].
Qed.

(** X27. The storage entry follows the atom: after [initCart] on a
    freshly loaded page, and from then on after every call, the entry
    holds the cart the atom holds, or holds nothing while the atom shows no
    line. *)
Theorem storage_follows_cart :
  (∀ entry, in_step (initCart (loaded entry)))
  ∧ ∀ (a : action) (st : Store), in_step st → in_step (perform a st).
Proof.
  split.
  - intros [c|]; by left.
  - intros a st Hst. destruct a; simpl.
    + unfold initCart. destruct (stored st) eqn:E; [by left|done].
    + by left.
    + by apply in_step_removeItem.
    + unfold incrementItem. destruct (cart st); [|done].
      destruct (list_find _ _) as [[i x]|]; [apply in_step_publish|done].
    + unfold decrementItem. destruct (cart st) eqn:Ec; [|done].
      destruct (list_find _ _) as [[i x]|]; [|done].
      destruct (_ <=? _); [|apply in_step_publish].
      unfold removeItem. simpl. apply in_step_publish.
    + by right.
    + destruct Hst as [H|H]; [by left|by right].
Qed.

(** X28. A reload loses nothing: on a store whose entry is in step,
    loading the page again and running [initCart] shows the same lines and
    the same count. *)
Theorem reload_keeps_lines :
  ∀ st : Store,
    in_step st →
    lines (cart (initCart (loaded (stored st)))) = lines (cart st)
    ∧ itemCount (cart (initCart (loaded (stored st)))) = itemCount (cart st).
Proof.
  intros st Hst.
  assert (lines (cart (initCart (loaded (stored st)))) = lines (cart st)) as H.
  { unfold initCart, loaded. cbn [stored cart].
    destruct Hst as [H|[H1 H2]].
    - rewrite H. by destruct (cart st).
    - by rewrite H1, H2. }
  split; [done|]. by rewrite !itemCount_lines, H.
Qed.

(** *** Carts with one positive line per product *)

Lemma lines_ok_alter n i l x :
  lines_ok l → l !! i = Some x → 0 < js_add (quantity x) n →
  lines_ok (alter (bump n) i l).
Proof.
  intros (Hpos & Hids & Hpids) Hi Hq. split_and!.
  - apply Forall_alter; [done|]. intros y Hy _. simpl.
    by replace y with x by congruence.
  - by rewrite fmap_alter_same.
  - by rewrite fmap_alter_same.
Qed.

Lemma lines_ok_filter (P : CartItem → Prop) `{!∀ x, Decision (P x)} l :
  lines_ok l → lines_ok (filter P l).
Proof.
  intros (Hpos & Hids & Hpids). split_and!.
  - rewrite Forall_forall in Hpos |- *.
    intros it [_ Hin]%list_elem_of_filter. by apply Hpos.
  - eapply sublist_NoDup; [exact Hids|]. apply fmap_sublist, sublist_filter.
  - eapply sublist_NoDup; [exact Hpids|]. apply fmap_sublist, sublist_filter.
Qed.

Lemma lines_ok_snoc l it :
  lines_ok l → 0 < quantity it →
  item_id it ∉ item_id <$> l → productIdOf it ∉ productIdOf <$> l →
  lines_ok (l ++ [it]).
Proof.
  intros (Hpos & Hids & Hpids) Hq Hid Hpid. split_and!.
  - apply Forall_app. split; [done|]. by repeat constructor.
  - rewrite fmap_app. apply NoDup_app. split_and!; [done| |apply NoDup_singleton].
    intros x Hx ->%list_elem_of_singleton. done.
  - rewrite fmap_app. apply NoDup_app. split_and!; [done| |apply NoDup_singleton].
    intros x Hx ->%list_elem_of_singleton. done.
Qed.

Lemma cart_ok_lines c : cart_ok c ↔ lines_ok (lines c).
Proof. done. Qed.

Lemma lines_ok_nil : lines_ok [].
Proof. split_and!; simpl; constructor. Qed.

Lemma cart_ok_addItem uuid productId n variantId st :
  cart_ok (cart st) → 0 < n → uuid ∉ item_id <$> lines (cart st) →
  cart_ok (cart (addItem uuid productId n variantId st)).
Proof.
  intros Hok Hn Huuid. apply cart_ok_lines. apply cart_ok_lines in Hok.
  unfold addItem. cbn [cart lines with_items items].
  rewrite lookup_lines_default.
  destruct (list_find _ _) as [[i x]|] eqn:E.
  - apply list_find_Some in E as (Hi & _).
    apply (lines_ok_alter _ _ _ x); [done..|].
    destruct Hok as (Hpos & _). rewrite Forall_forall in Hpos.
    assert (0 < quantity x) by (by eapply Hpos, list_elem_of_lookup_2).
    apply js_round_pos. lia.
  - apply lines_ok_snoc; [done..|]. simpl.
    apply list_find_None in E. rewrite Forall_forall in E.
    intros (y & Hy & Hin)%list_elem_of_fmap. by apply (E y).
Qed.

Lemma cart_ok_removeItem itemId st :
  cart_ok (cart st) → cart_ok (cart (removeItem itemId st)).
Proof.
  intros Hok. unfold removeItem. destruct (cart st) as [c|] eqn:Ec; [|by rewrite Ec].
  apply cart_ok_lines. simpl. by apply lines_ok_filter.
Qed.

Lemma cart_ok_incrementItem itemId st :
  cart_ok (cart st) → cart_ok (cart (incrementItem itemId st)).
Proof.
  intros Hok. unfold incrementItem.
  destruct (cart st) as [c|] eqn:Ec; [|by rewrite Ec].
  destruct (list_find _ _) as [[i x]|] eqn:E; [|by rewrite Ec].
  apply list_find_Some in E as (Hi & _).
  apply cart_ok_lines. simpl. apply (lines_ok_alter _ _ _ x); [done..|].
  destruct Hok as (Hpos & _). rewrite Forall_forall in Hpos.
  assert (0 < quantity x) by (by eapply Hpos, list_elem_of_lookup_2).
  apply js_round_pos. lia.
Qed.

Lemma cart_ok_decrementItem itemId st :
  cart_ok (cart st) → cart_ok (cart (decrementItem itemId st)).
Proof.
  intros Hok. unfold decrementItem.
  destruct (cart st) as [c|] eqn:Ec; [|by rewrite Ec].
  destruct (list_find _ _) as [[i x]|] eqn:E; [|by rewrite Ec].
  apply list_find_Some in E as (Hi & Hid & _).
  destruct (Z.leb_spec (js_add (quantity x) (-1)) 0).
  - unfold removeItem. apply cart_ok_lines. simpl.
    rewrite (filter_alter_out _ _ _ _ x); [|done|by intros []..].
    by apply lines_ok_filter.
  - apply cart_ok_lines. simpl. by apply (lines_ok_alter _ _ _ x).
Qed.

Lemma stored_cart_after a st :
  stored (perform a st) = cart (perform a st)
  ∨ stored (perform a st) = stored st
  ∨ stored (perform a st) = None.
Proof.
  destruct a; simpl.
  - right. left. unfold initCart. by destruct (stored st) eqn:E.
  - by left.
  - unfold removeItem. destruct (cart st); [by left|by right; left].
  - unfold incrementItem. destruct (cart st); [|by right; left].
    destruct (list_find _ _) as [[i x]|]; [by left|by right; left].
  - unfold decrementItem. destruct (cart st); [|by right; left].
    destruct (list_find _ _) as [[i x]|]; [|by right; left].
    destruct (_ <=? _); by left.
  - by right; right.
  - by right; left.
Qed.

(** X29. Every call keeps the cart, and the stored cart, with one line
    per product, distinct line ids and positive quantities, provided each
    [addItem] adds a positive quantity under a fresh id. *)
Theorem calls_keep_store_ok :
  ∀ (a : action) (st : Store),
    store_ok st → sound_call a st → store_ok (perform a st).
Proof.
  intros a st [Hcart Hstored] Hcall.
  assert (Hc : cart_ok (cart (perform a st))).
  { destruct a; simpl in *.
    - unfold initCart. by destruct (stored st).
    - destruct Hcall. by apply cart_ok_addItem.
    - by apply cart_ok_removeItem.
    - by apply cart_ok_incrementItem.
    - by apply cart_ok_decrementItem.
    - apply lines_ok_nil.
    - done. }
  split; [done|].
  destruct (stored_cart_after a st) as [-> | [-> | ->]]; [done..|].
  apply lines_ok_nil.
Qed.

Lemma total_filter_one itemId l i x :
  NoDup (item_id <$> l) → l !! i = Some x → item_id x = itemId →
  total (filter (λ it, item_id it ≠ itemId) l) = total l - quantity x.
Proof.
  revert i. induction l as [|y l IH]; intros i Hnd Hi Hid; [done|].
  rewrite fmap_cons in Hnd. apply NoDup_cons in Hnd as [Hy Hnd].
  destruct i as [|i]; simplify_eq/=.
  - rewrite filter_cons_False by (by intros []).
    assert (filter (λ it, item_id it ≠ item_id x) l = l) as ->; [|lia].
    clear IH Hnd. induction l as [|z l IH]; [done|].
    rewrite fmap_cons in Hy. apply not_elem_of_cons in Hy as [Hz Hy].
    rewrite filter_cons_True by done. by rewrite IH.
  - rewrite filter_cons_True.
    + simpl. rewrite (IH i); [lia|done..].
    + intros E. apply Hy. rewrite E.
      apply list_elem_of_fmap_2. by eapply list_elem_of_lookup_2.
Qed.

(** X30. Each click counts one, while the sizes of the quantities in the
    cart add up to less than 2^53: for a line of the cart, [incrementItem]
    raises the count shown by one, and in a cart with distinct ids and
    positive quantities [decrementItem] lowers it by one, also when the
    click removes the line. *)
Theorem each_click_counts_one :
  ∀ (itemId : string) (st : Store) (it : CartItem),
    it ∈ lines (cart st) → item_id it = itemId →
    weight (lines (cart st)) < js_exact →
    itemCount (cart (incrementItem itemId st)) = itemCount (cart st) + 1
    ∧ (cart_ok (cart st) →
       itemCount (cart (decrementItem itemId st)) = itemCount (cart st) - 1).
Proof.
  intros itemId st it Hin Hid Hw.
  rewrite (itemCount_total (cart st)) by lia.
  destruct (cart st) as [c|] eqn:Ec; [|by apply not_elem_of_nil in Hin].
  simpl in Hin, Hw.
  destruct (list_find_elem_of (λ it, item_id it = itemId) (items c) it Hin Hid)
    as [[i x] Hfind].
  pose proof Hfind as (Hi & Hx & _)%list_find_Some.
  unfold incrementItem, decrementItem. rewrite Ec, Hfind. split.
  - destruct (alter_bump_exact 1 i _ x Hi) as [Ht Hw']; [simpl; lia|].
    rewrite itemCount_total by (simpl in *; lia). simpl. lia.
  - intros (Hpos & Hids & _). simpl in Hpos, Hids.
    rewrite Forall_forall in Hpos.
    assert (0 < quantity x) by (by eapply Hpos, list_elem_of_lookup_2).
    destruct (Z.leb_spec (js_add (quantity x) (-1)) 0).
    + unfold removeItem. cbn [cart publish with_items items lines].
      rewrite (filter_alter_out _ _ _ _ x); [|done|by intros []..].
      pose proof (weight_filter (λ it, item_id it ≠ itemId) (items c)).
      rewrite itemCount_total by (simpl; lia). simpl.
      rewrite (total_filter_one itemId _ i x) by done.
      assert (js_add (quantity x) (-1) = quantity x + -1)
        by (apply js_add_exact; unfold js_exact in *;
            pose proof (weight_lookup _ _ _ Hi); lia).
      lia.
    + destruct (alter_bump_exact (-1) i _ x Hi) as [Ht Hw']; [simpl; lia|].
      rewrite itemCount_total by (simpl in *; lia). simpl. lia.
Qed.

(** *** The sample store *)

Lemma sample_second_line :
  mkItem "i2" (ProductDoc "p2" "Mug" 900) 1 (Some "v1")
  ∈ lines (cart sample_store).
Proof. apply list_elem_of_further, list_elem_of_here. Qed.

Lemma sample_store_ok : store_ok sample_store.
Proof. apply (bool_decide_unpack _). vm_compute. exact I. Qed.

Lemma addItem_count_witness :
  itemCount (cart (addItem "u9" "p2" 3 (Some "v9") sample_store))
  = itemCount (cart sample_store) + 3.
Proof.
  apply (addItem_count "u9" "p2" 3 (Some "v9") sample_store).
  vm_compute. discriminate.
Defined.

Lemma addItem_known_product_witness :
  line_key <$> lines (cart (addItem "u9" "p2" 3 (Some "v9") sample_store))
  = line_key <$> lines (cart sample_store).
Proof.
  apply (addItem_known_product "u9" "p2" 3 (Some "v9") sample_store
           (mkItem "i2" (ProductDoc "p2" "Mug" 900) 1 (Some "v1"))).
  - exact sample_second_line.
  - reflexivity.
Defined.

Lemma increment_then_decrement_witness :
  cart (decrementItem "i1" (incrementItem "i1" sample_store))
  = cart sample_store.
Proof.
  apply (increment_then_decrement "i1" sample_store 0
           (mkItem "i1" (ProductId "p1") 2 None)).
  - reflexivity.
  - reflexivity.
  - reflexivity.
Defined.

Lemma decrement_to_nothing_removes_witness :
  cart (decrementItem "i2" sample_store) = cart (removeItem "i2" sample_store).
Proof.
  apply (decrement_to_nothing_removes "i2" sample_store 1
           (mkItem "i2" (ProductDoc "p2" "Mug" 900) 1 (Some "v1"))).
  - reflexivity.
  - discriminate.
Defined.

Lemma unknown_id_changes_nothing_witness :
  incrementItem "i7" sample_store = sample_store
  ∧ decrementItem "i7" sample_store = sample_store
  ∧ lines (cart (removeItem "i7" sample_store)) = lines (cart sample_store).
Proof.
  apply (unknown_id_changes_nothing "i7" sample_store).
  apply Forall_forall. repeat constructor; discriminate.
Defined.

Lemma storage_follows_cart_witness :
  in_step (perform ClearCart sample_store).
Proof.
  apply (proj2 storage_follows_cart). left. reflexivity.
Defined.

Lemma reload_keeps_lines_witness :
  lines (cart (initCart (loaded (stored sample_store))))
  = lines (cart sample_store).
Proof.
  apply (reload_keeps_lines sample_store). left. reflexivity.
Defined.

Lemma calls_keep_store_ok_witness :
  store_ok (perform (AddItem "u9" "p3" 1 None) sample_store).
Proof.
  apply calls_keep_store_ok.
  - exact sample_store_ok.
  - split; [reflexivity|]. apply (bool_decide_unpack _). vm_compute. exact I.
Defined.

Lemma each_click_counts_one_witness :
  itemCount (cart (incrementItem "i2" sample_store))
  = itemCount (cart sample_store) + 1
  ∧ itemCount (cart (decrementItem "i2" sample_store))
    = itemCount (cart sample_store) - 1.
Proof.
  split.
  - apply (proj1 (each_click_counts_one "i2" sample_store _
                    sample_second_line eq_refl eq_refl)).
  - apply (proj2 (each_click_counts_one "i2" sample_store _
                    sample_second_line eq_refl eq_refl)).
    apply sample_store_ok.
Defined.

End CartFacts.
